(** * lichess-player-summary: the game importer, the move matcher and the
      frequency reports of [lichess_main.py], embedded in Rocq.

    Python strings are [string], one [ascii] per character: text whose
    characters have code points below 256, the [ascii] being the code point;
    an absent
    or NaN cell is [None]; a Python dict with string keys is a
    [gmap string _]; a DataFrame with the default [RangeIndex], as
    [get_player_games] builds it, is the list of its rows in index order, and
    a Series over that index is the list of its values. The integer mask of
    the matcher is a list of [Z]: its entries are at most twice the number
    of candidates. Exceptions are the [Raise] results of [result]. *)

From Stdlib Require Import ZArith Ascii String.
From stdpp Require Import base list strings gmap sorting.

Local Open Scope string_scope.
Local Open Scope nat_scope.

(** ** Python list slicing *)

Section slices.
Context {A : Type}.

(** Every [step]-th element of [x]; [wait] elements are passed over before
    the next one is taken. *)
Fixpoint stride_from (step wait : nat) (x : list A) : list A :=
  match x with
  | [] => []
  | a :: r =>
      match wait with
      | 0 => a :: stride_from step (pred step) r
      | S w => stride_from step w r
      end
  end.

(** [x[start:stop:step]] for [0 <= start], [0 <= stop] and [0 < step]:
    the elements at the indices [start], [start + step], ... below
    [min stop (len x)]. *)
Definition py_slice (start stop step : nat) (x : list A) : list A :=
  stride_from step 0 (drop start (take stop x)).

(** The plies of one side: [plies_from false] keeps the positions
    0, 2, 4, ... and [plies_from true] the positions 1, 3, 5, ... *)
Fixpoint plies_from (skip : bool) (x : list A) : list A :=
  match x with
  | [] => []
  | a :: r => if skip then plies_from false r else a :: plies_from true r
  end.

Definition white_plies : list A → list A := plies_from false.
Definition black_plies : list A → list A := plies_from true.
End slices.

(** ** [itertools.permutations] *)

Section permutations.
Context {A : Type}.

(** Each element of the pool together with the other elements, in index
    order. *)
Fixpoint selections (pool : list A) : list (A * list A) :=
  match pool with
  | [] => []
  | a :: r => (a, r) :: map (λ s, (s.1, a :: s.2)) (selections r)
  end.

(** [itertools.permutations(pool, r)]: the [r]-length arrangements of the
    pool by position, in lexicographic order of the positions; none when
    [r > len(pool)]. *)
Fixpoint itertools_permutations_r (r : nat) (pool : list A) : list (list A) :=
  match r with
  | 0 => [[]]
  | S r' =>
      flat_map (λ s, map (cons s.1) (itertools_permutations_r r' s.2))
               (selections pool)
  end.

(** [itertools.permutations(pool)]: [r] defaults to [len(pool)]. *)
Definition itertools_permutations (pool : list A) : list (list A) :=
  itertools_permutations_r (length pool) pool.
End permutations.

(** ** The game table *)

(** One row of [games_df] as [get_player_games] returns it. *)
Record GameRecord := {
  winner : option string;
  status : option string;
  opening : option string;
  variation : option string;
  moves : list string
}.

#[global] Instance GameRecord_eq_dec : EqDecision GameRecord.
Proof. solve_decision. Defined.

(** ** [given_move_responses] *)

(** What the local name [moves] is bound to after lines 91-94: the one-shot
    iterator [itertools.permutations(moves)], of which [pending] is still to
    be yielded, or the list [[moves]], which can be walked again. *)
Inductive moves_iterable :=
| PermutationsIter (pending : list (list string))
| ListOf (items : list (list string)).

(** One [for item in moves] statement: the items it visits and the state the
    iterable is left in. *)
Definition iterate (it : moves_iterable) : list (list string) * moves_iterable :=
  match it with
  | PermutationsIter pending => (pending, PermutationsIter [])
  | ListOf items => (items, ListOf items)
  end.

(** [df.moves.apply(f)] *)
Definition apply_moves (f : list string → bool) (df : list GameRecord) : list bool :=
  map (λ g, f (moves g)) df.

(** [mask + hits] on two Series over the same index, booleans counting as
    0 and 1. *)
Definition series_add (mask : list Z) (hits : list bool) : list Z :=
  zip_with (λ m b, m + Z.b2z b)%Z mask hits.

(** [for item in moves: mask += df.moves.apply(lambda x: cmp)] *)
Definition for_items (cmp : list string → list string → bool)
    (df : list GameRecord) (st : list Z * moves_iterable) : list Z * moves_iterable :=
  let '(items, it') := iterate st.2 in
  (fold_left (λ mask item, series_add mask (apply_moves (cmp item) df)) items st.1, it').

(** The three lambdas of lines 101, 104 and 107. *)
Definition white_cmp (item x : list string) : bool :=
  bool_decide (py_slice 0 (2 * length item) 2 x = item).
Definition black_cmp (item x : list string) : bool :=
  bool_decide (py_slice 1 (2 * length item + 1) 2 x = item).
Definition plain_cmp (item x : list string) : bool :=
  bool_decide (py_slice 0 (length item) 1 x = item).

(** [mask.astype(bool)] *)
Definition astype_bool (mask : list Z) : list bool :=
  map (λ m, negb (m =? 0)%Z) mask.

(** [df[mask]] for a boolean Series over the index of [df]. *)
Definition boolean_index {A} (df : list A) (mask : list bool) : list A :=
  omap (λ p : A * bool, if p.2 then Some p.1 else None) (zip df mask).

(** Lines 91-109. The test of line 102 is an [if], not an [elif]: for
    [color = "white"] the [else] loop of line 106 is entered after the loop
    of line 100, and it visits what the iterable still yields. *)
Definition given_move_responses (df : list GameRecord) (moves : list string)
    (color : option string) (shuffle : bool) : list GameRecord :=
  let moves := if shuffle then PermutationsIter (itertools_permutations moves)
               else ListOf [moves] in
  let mask := replicate (length df) 0%Z in
  let st := (mask, moves) in
  let st := if bool_decide (color = Some "white") then for_items white_cmp df st
            else st in
  let st := if bool_decide (color = Some "black") then for_items black_cmp df st
            else for_items plain_cmp df st in
  boolean_index df (astype_bool st.1).

(** ** [get_player_games] *)

Inductive pyerr := KeyError | AttributeError.

Inductive result (A : Type) :=
| Ok (a : A)
| Raise (e : pyerr).
Arguments Ok {A} a.
Arguments Raise {A} e.

#[global] Instance result_ret : MRet result := λ A, Ok.
#[global] Instance result_bind : MBind result :=
  λ A B f m, match m with Ok a => f a | Raise e => Raise e end.

(** One game as the client yields it: a dict. [raw_opening] is the value
    under the key "opening", a nested dict ([None]: the key is missing);
    [raw_fields] holds the other entries whose values are strings ("winner",
    "status", "moves", ...). Entries with other values (numbers, player and
    clock data) sit in columns that line 48 drops. *)
Record RawGame := {
  raw_fields : gmap string string;
  raw_opening : option (gmap string string)
}.

(** [{**x, **x.pop("opening")}]: [KeyError] without the key "opening";
    otherwise the entries of the game and of the nested dict, the latter
    winning on a shared key. *)
Definition merge_opening (x : RawGame) : result (gmap string string) :=
  match raw_opening x with
  | None => Raise KeyError
  | Some o => Ok (o ∪ raw_fields x)
  end.

(** The columns of [pd.DataFrame(rows)]: every key of every row. *)
Definition has_column (rows : list (gmap string string)) (c : string) : bool :=
  bool_decide (Exists (λ r, is_Some (r !! c)) rows).

(** [df[cols]] raises [KeyError] when a label is not a column. *)
Definition select_columns (cols : list string) (rows : list (gmap string string))
    : result (list (gmap string string)) :=
  if forallb (has_column rows) cols
  then Ok (filter (λ kv, kv.1 ∈ cols) <$> rows)
  else Raise KeyError.

Definition newline : ascii := "010"%char.
Definition colon : ascii := ":"%char.

(** The pattern of line 52, a group of [.] starred and then an escaped colon,
    tried at the head of [s]: group 1 on a match. The
    star is greedy, so it first takes the next character (any but a newline)
    and goes on, and gives it back only when the rest fails. *)
Fixpoint match_before_colon (s : string) : option string :=
  match s with
  | EmptyString => None
  | String c r =>
      match (if Ascii.eqb c newline then None else match_before_colon r) with
      | Some g => Some (String c g)
      | None => if Ascii.eqb c colon then Some EmptyString else None
      end
  end.

(** [.] starred, at the head of [s]: the characters up to the first newline. *)
Fixpoint dot_star (s : string) : string :=
  match s with
  | EmptyString => EmptyString
  | String c r => if Ascii.eqb c newline then EmptyString else String c (dot_star r)
  end.

(** The pattern of line 53, an escaped colon and then a group of [.] starred,
    tried at the head of [s]: group 1 on a match. *)
Definition match_after_colon (s : string) : option string :=
  match s with
  | EmptyString => None
  | String c r => if Ascii.eqb c colon then Some (dot_star r) else None
  end.

(** [re.search]: the match at the leftmost position that has one. *)
Fixpoint re_search (m : string → option string) (s : string) : option string :=
  match m s with
  | Some g => Some g
  | None => match s with
            | EmptyString => None
            | String _ r => re_search m r
            end
  end.

(** [Series.str.extract(pat, expand=False)] on one cell, for a pattern with
    one group: the group of the first match, NaN when there is none or the
    cell is NaN. *)
Definition str_extract (m : string → option string) (cell : option string)
    : option string :=
  s ← cell; re_search m s.

(** The characters that [str.split()] takes for whitespace, among those
    with a code point below 256: the controls 9 to 13 and 28 to 31, the
    blank 32, the next-line control 133 and the no-break space 160. *)
Definition is_space (c : ascii) : bool :=
  let n := nat_of_ascii c in
  ((9 <=? n) && (n <=? 13) || (28 <=? n) && (n <=? 32)
   || (n =? 133) || (n =? 160))%nat.

Definition flush (tok : string) : list string :=
  match tok with EmptyString => [] | _ => [tok] end.

(** [s.split()]: the maximal runs without whitespace, in order; [tok] is the
    run being read. *)
Fixpoint py_split_from (tok : string) (s : string) : list string :=
  match s with
  | EmptyString => flush tok
  | String c r =>
      if is_space c then flush tok ++ py_split_from EmptyString r
      else py_split_from (tok +:+ String c EmptyString) r
  end.

Definition py_split (s : string) : list string := py_split_from EmptyString s.

(** Lines 52-62 on one row of the frame that line 48 leaves; every step is
    cell by cell. Line 57 writes the name into the [opening] cells that are
    NaN (the assignment through [games_df.opening] reaches the frame, as in
    the pandas releases without copy-on-write). [x.split()] on a NaN cell
    raises [AttributeError]. *)
Definition normalise_row (row : gmap string string) : result GameRecord :=
  let name := row !! "name" in
  let opening := str_extract match_before_colon name in
  let variation := str_extract match_after_colon name in
  let no_variation_mask := bool_decide (opening = None) in
  let opening := if no_variation_mask then name else opening in
  moves ← match row !! "moves" with
          | Some x => Ok (py_split x)
          | None => Raise AttributeError
          end;
  Ok {| winner := row !! "winner"; status := row !! "status";
        opening := opening; variation := variation; moves := moves |}.

(** Lines 47-64, from the list of games that the client call of line 43
    returns. *)
Definition get_player_games (games_list : list RawGame) : result (list GameRecord) :=
  rows ← mapM merge_opening games_list;
  games_df ← select_columns ["winner"; "status"; "name"; "moves"] rows;
  mapM normalise_row games_df.

(** ** The two reports (lines 130-147) *)

Definition opposite_color (color : string) : string :=
  if bool_decide (color = "black") then "white" else "black".

(** [(games_df.winner == opposite_color) | games_df.winner.isnull()] *)
Definition not_win_mask (color : string) (games_df : list GameRecord) : list bool :=
  map (λ g, bool_decide (winner g = Some (opposite_color color))
            || bool_decide (winner g = None)) games_df.

(** One more occurrence of [v] in a tally kept in first-seen order. *)
Fixpoint bump (v : string) (acc : list (string * nat)) : list (string * nat) :=
  match acc with
  | [] => [(v, 1)]
  | (k, n) :: rest => if bool_decide (k = v) then (k, S n) :: rest
                      else (k, n) :: bump v rest
  end.

Definition tally (vs : list string) : list (string * nat) :=
  fold_left (λ acc v, bump v acc) vs [].

Definition by_count_desc (a b : string * nat) : Prop := (b.2 ≤ a.2)%nat.

#[global] Instance by_count_desc_dec : RelDecision by_count_desc.
Proof. intros a b. unfold by_count_desc. apply _. Defined.

(** [Series.value_counts()] as pandas documents it: NaN cells are dropped,
    every distinct value is listed once with the number of its occurrences,
    the entries in descending order of count. The order among equal counts
    is left to the sort and nothing below relies on it. *)
Definition value_counts (col : list (option string)) : list (string * nat) :=
  merge_sort by_count_desc (tally (omap id col)).

(** [games_df.opening.value_counts()] *)
Definition opening_report (games_df : list GameRecord) : list (string * nat) :=
  value_counts (opening <$> games_df).

(** [games_df[not_win_mask].status.value_counts()] *)
Definition not_win_report (color : string) (games_df : list GameRecord)
    : list (string * nat) :=
  value_counts (status <$> boolean_index games_df (not_win_mask color games_df)).

(** ** Sample data *)

Definition game (ms : list string) : GameRecord :=
  {| winner := None; status := None; opening := None; variation := None; moves := ms |}.

Definition raw (w : option string) (st nm mv : string) : RawGame :=
  {| raw_fields := <["status" := st]> (<["moves" := mv]>
                     (match w with Some w => {["winner" := w]} | None => ∅ end));
     raw_opening := Some (<["eco" := "B90"]> {["name" := nm]}) |}.

(** ** What the matcher is compared with *)

(** The candidate sequences of the matcher: every arrangement of the target
    when permutations are allowed, the target itself otherwise. *)
Definition candidate (shuffle : bool) (target c : list string) : Prop :=
  if shuffle then c ≡ₚ target else c = target.

(** The number of items of one loop that compare equal on the moves [x],
    added to [n]. *)
Definition hits (cmp : list string → list string → bool)
    (items : list (list string)) (x : list string) (n : Z) : Z :=
  fold_left (λ n item, n + Z.b2z (cmp item x))%Z items n.

Definition any_item (cmp : list string → list string → bool)
    (items : list (list string)) (x : list string) : bool :=
  existsb (λ item, cmp item x) items.

(** Whether a game with the moves [x] is kept: the three loops of
    [given_move_responses] read as one test. *)
Definition accepts (moves : list string) (color : option string) (shuffle : bool)
    (x : list string) : bool :=
  let items := if shuffle then itertools_permutations moves else [moves] in
  if bool_decide (color = Some "white") then
    any_item white_cmp items x || (if shuffle then false else any_item plain_cmp items x)
  else if bool_decide (color = Some "black") then any_item black_cmp items x
  else any_item plain_cmp items x.

(** The comparison window of [n] plies: one side's first [n] plies for
    "white" and "black", the first [n] plies otherwise. *)
Definition comparison_window (color : option string) (n : nat) (x : list string)
    : list string :=
  if bool_decide (color = Some "white") then take n (white_plies x)
  else if bool_decide (color = Some "black") then take n (black_plies x)
  else take n x.

(** Whether the character [c] occurs in [s]. *)
Fixpoint has_char (c : ascii) (s : string) : bool :=
  match s with
  | EmptyString => false
  | String d r => Ascii.eqb d c || has_char c r
  end.

(** The occurrences of [v] in a list of values. *)
Definition occurrences (v : string) (vs : list string) : nat :=
  length (filter (λ w, w = v) vs).

(** The count a tally holds for [v], 0 when [v] is not listed. *)
Fixpoint count_of (acc : list (string * nat)) (v : string) : nat :=
  match acc with
  | [] => 0
  | (k, n) :: rest => if bool_decide (k = v) then n else count_of rest v
  end.

(** A tally lists every value once, with a positive count. *)
Definition tally_ok (acc : list (string * nat)) : Prop :=
  NoDup acc.*1 ∧ Forall (λ kn, 0 < kn.2) acc.

(** The plies a game needs for the window of [n] plies to be full. *)
Definition plies_required (color : option string) (n : nat) : nat :=
  if bool_decide (color = Some "white") then 2 * n - 1
  else if bool_decide (color = Some "black") then 2 * n
  else n.

(** ** More of the script and of what it is compared with *)

(** [games_df.winner == color] (line 136) *)
Definition win_mask (color : string) (games_df : list GameRecord) : list bool :=
  map (λ g, bool_decide (winner g = Some color)) games_df.

(** [games_df.winner == opposite_color] (line 137) *)
Definition lose_mask (color : string) (games_df : list GameRecord) : list bool :=
  map (λ g, bool_decide (winner g = Some (opposite_color color))) games_df.

(** The cell of the frame of line 47 for the game [x] and the column [c]:
    the value of the merged dict under [c], NaN when there is none. *)
Definition merged_cell (x : RawGame) (c : string) : option string :=
  o ← raw_opening x; (o ∪ raw_fields x) !! c.

(** The whitespace characters of Python below code point 256, one by one:
    tab, line feed, vertical tab, form feed, carriage return, the four
    separators FS, GS, RS and US, the blank, next line (U+0085) and the
    no-break space (U+00A0). *)
Definition python_whitespace : list ascii :=
  ["009"; "010"; "011"; "012"; "013"; "028"; "029"; "030"; "031"; " ";
   "133"; "160"]%char.

(** Whether [s] holds one of the characters of [python_whitespace]. *)
Definition holds_whitespace (s : string) : bool :=
  existsb (λ c, has_char c s) python_whitespace.

(** Whether [s] holds a whitespace character. *)
Fixpoint has_space (s : string) : bool :=
  match s with
  | EmptyString => false
  | String c r => is_space c || has_space r
  end.

(** The tokens written one after the other, a single blank between two. *)
Fixpoint join_spaces (tokens : list string) : string :=
  match tokens with
  | [] => EmptyString
  | t :: rest =>
      match rest with
      | [] => t
      | _ :: _ => t +:+ String " "%char (join_spaces rest)
      end
  end.

(** * Proofs *)

(** ** Slices *)

Section slice_facts.
Context {A : Type}.
Implicit Types x : list A.

Lemma stride_from_1 x : stride_from 1 0 x = x.
Proof. induction x as [|a r IH]; simpl; by rewrite ?IH. Qed.

Lemma stride_from_2 x :
  stride_from 2 0 x = white_plies x ∧ stride_from 2 1 x = black_plies x.
Proof.
  unfold white_plies, black_plies.
  induction x as [|a r [IH0 IH1]]; simpl; [done|].
  by rewrite IH0, IH1.
Qed.

Lemma white_plies_take n x :
  white_plies (take (2 * n) x) = take n (white_plies x).
Proof.
  unfold white_plies. revert x.
  induction n as [|n IH]; intros x; [by destruct x|].
  replace (2 * S n) with (S (S (2 * n))) by lia.
  destruct x as [|a [|b r]]; simpl; [done| by destruct n |].
  by rewrite IH.
Qed.

Lemma py_slice_white n x : py_slice 0 (2 * n) 2 x = take n (white_plies x).
Proof.
  unfold py_slice. rewrite drop_0.
  rewrite (proj1 (stride_from_2 _)). apply white_plies_take.
Qed.

Lemma py_slice_black n x : py_slice 1 (2 * n + 1) 2 x = take n (black_plies x).
Proof.
  unfold py_slice. rewrite (proj1 (stride_from_2 _)).
  replace (2 * n + 1) with (S (2 * n)) by lia.
  destruct x as [|a r]; simpl; [by destruct n|].
  rewrite drop_0. apply white_plies_take.
Qed.

Lemma py_slice_plain n x : py_slice 0 n 1 x = take n x.
Proof. unfold py_slice. by rewrite drop_0, stride_from_1. Qed.

Lemma plies_from_lookup x i :
  white_plies x !! i = x !! (2 * i) ∧ black_plies x !! i = x !! (2 * i + 1).
Proof.
  unfold white_plies, black_plies. revert i.
  induction x as [|a r IH]; intros i; simpl; [done|].
  split.
  - destruct i as [|i]; simpl; [done|].
    replace (i + S (i + 0)) with (S (2 * i)) by lia. simpl.
    destruct (IH i) as [_ ->]. f_equal. lia.
  - replace (i + (i + 0) + 1) with (S (2 * i)) by lia. simpl.
    by destruct (IH i) as [-> _].
Qed.

Lemma plies_from_length x :
  2 * length (white_plies x) = length x + length x `mod` 2
  ∧ 2 * length (black_plies x) + length x `mod` 2 = length x.
Proof.
  unfold white_plies, black_plies.
  induction x as [|a r [IH0 IH1]]; [done|].
  cbn [plies_from length].
  assert (Hm : length r `mod` 2 < 2) by (apply Nat.mod_upper_bound; lia).
  assert (HS : S (length r) `mod` 2 = 1 - length r `mod` 2).
  { replace (S (length r)) with (1 + length r) by lia.
    rewrite <- Nat.Div0.add_mod_idemp_r.
    destruct (length r `mod` 2) as [|[|?]]; simpl; [done|done|lia]. }
  rewrite HS. lia.
Qed.
End slice_facts.

(** ** [itertools.permutations] yields the arrangements of the pool *)

Section permutation_facts.
Context {A : Type}.
Implicit Types pool p : list A.

Lemma selections_sound pool a rest :
  In (a, rest) (selections pool) → a :: rest ≡ₚ pool.
Proof.
  revert a rest. induction pool as [|b t IH]; intros a rest; simpl; [done|].
  intros [[= <- <-]|Hin]; [done|].
  apply in_map_iff in Hin as ([a' rest'] & [= <- <-] & Hin). simpl.
  rewrite <- (IH _ _ Hin). apply Permutation_swap.
Qed.

Lemma selections_complete pool a :
  In a pool → ∃ rest, In (a, rest) (selections pool).
Proof.
  induction pool as [|b t IH]; simpl; [done|].
  intros [->|Hin]; [by eauto|].
  destruct (IH Hin) as [rest Hrest]. exists (b :: rest). right.
  apply in_map_iff. by exists (a, rest).
Qed.

Lemma itertools_permutations_r_spec r pool p :
  length pool = r → In p (itertools_permutations_r r pool) ↔ p ≡ₚ pool.
Proof.
  revert pool p. induction r as [|r IH]; intros pool p Hlen; simpl.
  - apply nil_length_inv in Hlen as ->. split.
    + by intros [<-|[]].
    + intros Hp. apply Permutation_nil_r in Hp. by left.
  - rewrite in_flat_map. split.
    + intros ([a rest] & Hsel & Hin). simpl in Hin.
      apply in_map_iff in Hin as (q & <- & Hq).
      pose proof (selections_sound _ _ _ Hsel) as Hperm.
      rewrite <- Hperm. apply Permutation_skip, IH; [|done].
      apply Permutation_length in Hperm. simpl in Hperm. lia.
    + intros Hp. destruct p as [|a q].
      { apply Permutation_length in Hp. simpl in Hp. lia. }
      destruct (selections_complete pool a) as [rest Hsel].
      { apply list_elem_of_In. rewrite <- Hp. by left. }
      pose proof (selections_sound _ _ _ Hsel) as Hperm.
      exists (a, rest). split; [done|]. simpl.
      apply in_map_iff. exists q. split; [done|].
      apply IH.
      * apply Permutation_length in Hperm. simpl in Hperm. lia.
      * apply (Permutation_cons_inv (a := a)). by rewrite Hp.
Qed.

Lemma elem_of_itertools_permutations pool p :
  p ∈ itertools_permutations pool ↔ p ≡ₚ pool.
Proof.
  rewrite list_elem_of_In. by apply itertools_permutations_r_spec.
Qed.

Lemma itertools_permutations_nil : itertools_permutations (@nil A) = [[]].
Proof. reflexivity. Qed.
End permutation_facts.

(** ** The mask of [given_move_responses] *)

Lemma replicate_as_map (df : list GameRecord) :
  replicate (length df) 0%Z = map (λ _, 0%Z) df.
Proof. induction df as [|g df IH]; simpl; by rewrite ?IH. Qed.

Lemma series_add_map (c : GameRecord → Z) f df :
  series_add (map c df) (apply_moves f df)
  = map (λ g, c g + Z.b2z (f (moves g)))%Z df.
Proof.
  unfold series_add, apply_moves.
  induction df as [|g df IH]; simpl; by rewrite ?IH.
Qed.

Lemma fold_series_add cmp items : ∀ (c : GameRecord → Z) df,
  fold_left (λ mask item, series_add mask (apply_moves (cmp item) df)) items (map c df)
  = map (λ g, hits cmp items (moves g) (c g)) df.
Proof.
  unfold hits. induction items as [|item items IH]; intros c df; simpl; [done|].
  by rewrite series_add_map, IH.
Qed.

Lemma for_items_map cmp df (c : GameRecord → Z) it :
  for_items cmp df (map c df, it)
  = (map (λ g, hits cmp (iterate it).1 (moves g) (c g)) df, (iterate it).2).
Proof.
  unfold for_items. simpl. destruct (iterate it) as [items it']. simpl.
  by rewrite fold_series_add.
Qed.

Lemma hits_ge cmp items x n : (n ≤ hits cmp items x n)%Z.
Proof.
  unfold hits. revert n. induction items as [|item items IH]; intros n; simpl; [lia|].
  etrans; [|apply IH]. destruct (cmp item x); simpl; lia.
Qed.

Lemma hits_nonzero cmp items x n :
  (0 ≤ n)%Z →
  negb (hits cmp items x n =? 0)%Z = negb (n =? 0)%Z || any_item cmp items x.
Proof.
  unfold hits, any_item. revert n.
  induction items as [|item items IH]; intros n Hn; simpl.
  - by rewrite orb_false_r.
  - rewrite IH by (destruct (cmp item x); simpl; lia).
    destruct (cmp item x); simpl.
    + replace (n + 1 =? 0)%Z with false by lia. simpl. by rewrite orb_true_r.
    + by rewrite Z.add_0_r.
Qed.

Lemma boolean_index_map (c : GameRecord → Z) df :
  boolean_index df (astype_bool (map c df))
  = filter (λ g, negb (c g =? 0)%Z) df.
Proof.
  unfold boolean_index, astype_bool.
  induction df as [|g df IH]; [done|].
  rewrite filter_cons, <- IH. cbn.
  by destruct (c g =? 0)%Z.
Qed.

(** The three loops as one test on each game. *)
Lemma given_move_responses_filter df target color shuffle :
  given_move_responses df target color shuffle
  = filter (λ g, accepts target color shuffle (moves g)) df.
Proof.
  unfold given_move_responses, accepts.
  rewrite replicate_as_map.
  destruct (bool_decide (color = Some "white")) eqn:Hw.
  - assert (bool_decide (color = Some "black") = false) as ->.
    { apply bool_decide_eq_true in Hw as ->. by apply bool_decide_eq_false. }
    rewrite !for_items_map. cbn [fst snd]. rewrite boolean_index_map.
    apply list_filter_iff. intros g.
    rewrite hits_nonzero by apply hits_ge.
    rewrite hits_nonzero by done. simpl.
    destruct shuffle; simpl; [by rewrite orb_false_r|done].
  - destruct (bool_decide (color = Some "black")).
    + rewrite for_items_map. cbn [fst snd]. rewrite boolean_index_map.
      apply list_filter_iff. intros g. rewrite hits_nonzero by done.
      by destruct shuffle.
    + rewrite for_items_map. cbn [fst snd]. rewrite boolean_index_map.
      apply list_filter_iff. intros g. rewrite hits_nonzero by done.
      by destruct shuffle.
Qed.

(** ** The loops against the candidate sequences *)

Lemma any_item_spec cmp (items : list (list string)) x :
  any_item cmp items x = true ↔ ∃ item, item ∈ items ∧ cmp item x = true.
Proof.
  unfold any_item. rewrite existsb_exists.
  split; intros (item & Hin & Hcmp); exists item; by rewrite ?list_elem_of_In in *.
Qed.

Lemma candidate_items (shuffle : bool) (target c : list string) :
  c ∈ (if shuffle then itertools_permutations target else [target])
  ↔ candidate shuffle target c.
Proof.
  unfold candidate. destruct shuffle.
  - apply elem_of_itertools_permutations.
  - apply list_elem_of_singleton.
Qed.

Lemma candidate_length shuffle target c :
  candidate shuffle target c → length c = length target.
Proof.
  unfold candidate. destruct shuffle; [apply Permutation_length|by intros ->].
Qed.

Lemma white_cmp_spec item x :
  white_cmp item x = true ↔ item = take (length item) (white_plies x).
Proof.
  unfold white_cmp. rewrite bool_decide_eq_true, py_slice_white. by split.
Qed.

Lemma black_cmp_spec item x :
  black_cmp item x = true ↔ item = take (length item) (black_plies x).
Proof.
  unfold black_cmp. rewrite bool_decide_eq_true, py_slice_black. by split.
Qed.

Lemma plain_cmp_spec item x :
  plain_cmp item x = true ↔ item = take (length item) x.
Proof.
  unfold plain_cmp. rewrite bool_decide_eq_true, py_slice_plain. by split.
Qed.

Lemma any_item_window cmp (win : list string → list string)
    (shuffle : bool) target x :
  (∀ item, cmp item x = true ↔ item = take (length item) (win x)) →
  any_item cmp (if shuffle then itertools_permutations target else [target]) x = true
  ↔ ∃ c, candidate shuffle target c ∧ c = take (length target) (win x).
Proof.
  intros Hcmp. rewrite any_item_spec.
  split; intros (c & Hc & Heq); exists c.
  - apply candidate_items in Hc. split; [done|].
    apply Hcmp in Heq. by rewrite (candidate_length _ _ _ Hc) in Heq.
  - split; [by apply candidate_items|].
    apply Hcmp. by rewrite (candidate_length _ _ _ Hc).
Qed.

Lemma accepts_white target shuffle x :
  accepts target (Some "white") shuffle x = true
  ↔ (∃ c, candidate shuffle target c ∧ c = take (length target) (white_plies x))
    ∨ (shuffle = false ∧ target = take (length target) x).
Proof.
  unfold accepts. rewrite bool_decide_eq_true_2 by done.
  rewrite orb_true_iff, (any_item_window _ white_plies)
    by (intros; apply white_cmp_spec).
  destruct shuffle.
  - split; [intros [H|[=]]; by left | intros [H|[[=] _]]; by left].
  - rewrite (any_item_window _ id false) by (intros; apply plain_cmp_spec).
    unfold candidate, id. split; (intros [H|H]; [by left|right]).
    + by destruct H as (c & -> & H).
    + exists target. by destruct H.
Qed.

Lemma accepts_black target shuffle x :
  accepts target (Some "black") shuffle x = true
  ↔ ∃ c, candidate shuffle target c ∧ c = take (length target) (black_plies x).
Proof.
  unfold accepts. rewrite bool_decide_eq_false_2 by done.
  rewrite bool_decide_eq_true_2 by done.
  apply any_item_window. intros; apply black_cmp_spec.
Qed.

Lemma accepts_other target color shuffle x :
  color ≠ Some "white" → color ≠ Some "black" →
  accepts target color shuffle x = true
  ↔ ∃ c, candidate shuffle target c ∧ c = take (length target) x.
Proof.
  intros Hw Hb. unfold accepts. rewrite !bool_decide_eq_false_2 by done.
  apply (any_item_window _ id). intros; apply plain_cmp_spec.
Qed.

Lemma elem_of_given_move_responses df target color shuffle g :
  g ∈ given_move_responses df target color shuffle
  ↔ g ∈ df ∧ accepts target color shuffle (moves g) = true.
Proof.
  rewrite given_move_responses_filter, list_elem_of_filter.
  rewrite Is_true_true. apply and_comm.
Qed.

(** What the matcher does for [color = "white"]: with the permutation
    iterator the first loop uses it up and the third loop visits nothing;
    with the list [[moves]] the third loop runs too and adds the games whose
    interleaved prefix is the target. *)
Lemma white_matches df target shuffle g :
  g ∈ given_move_responses df target (Some "white") shuffle
  ↔ g ∈ df
    ∧ ((∃ c, candidate shuffle target c
             ∧ c = take (length target) (white_plies (moves g)))
       ∨ (shuffle = false ∧ target = take (length target) (moves g))).
Proof. by rewrite elem_of_given_move_responses, accepts_white. Qed.

(** C1, at the input where it fails: with [color = "white"] and
    [shuffle = False] the game e4 e5 is returned for the target e4 e5,
    although no candidate equals white's first two plies of that game (the
    window is e4 alone); the game is there for its interleaved prefix. *)
Theorem white_list_adds_prefix_matches :
  let df := [game ["e4"; "e5"]] in
  let target := ["e4"; "e5"] in
  given_move_responses df target (Some "white") false = df
  ∧ take (length target) (white_plies ["e4"; "e5"]) = ["e4"]
  ∧ ¬ (∃ c, candidate false target c
            ∧ c = take (length target) (white_plies ["e4"; "e5"]))
  ∧ given_move_responses df target (Some "white") true = [].
Proof.
  repeat split; try reflexivity.
  intros (c & Hc & Heq). unfold candidate in Hc. by subst.
Qed.

(** C5: with [color = "black"] a game is returned exactly when it is in the
    table and some candidate (the target, or any arrangement of it when
    permutations are allowed) equals black's first N plies, the plies at the
    positions 1, 3, 5, ... taken for N = len(target) plies; the game e4 e5 is
    returned for the target e5 without permutations. *)
Theorem black_matches_black_window :
  (∀ df target shuffle g,
     g ∈ given_move_responses df target (Some "black") shuffle
     ↔ g ∈ df ∧ ∃ c, candidate shuffle target c
                     ∧ c = take (length target) (black_plies (moves g)))
  ∧ given_move_responses [game ["e4"; "e5"]] ["e5"] (Some "black") false
    = [game ["e4"; "e5"]].
Proof.
  split; [|reflexivity]. intros df target shuffle g.
  by rewrite elem_of_given_move_responses, accepts_black.
Qed.

(** ** Short games *)

Lemma full_window_long_enough (c w : list string) n :
  c = take n w → length c = n → n ≤ length w.
Proof. intros -> Hlen. rewrite length_take in Hlen. lia. Qed.

Lemma white_plies_short (x : list string) n :
  length x < 2 * n - 1 → length (white_plies x) < n.
Proof.
  intros Hlen. destruct (plies_from_length x) as [Hw _].
  assert (length x `mod` 2 < 2) by (apply Nat.mod_upper_bound; lia). lia.
Qed.

Lemma black_plies_short (x : list string) n :
  length x < 2 * n → length (black_plies x) < n.
Proof. intros Hlen. destruct (plies_from_length x) as [_ Hb]. lia. Qed.

(** Where the exclusion of short games holds: every call but the one with
    [color = "white"] and [shuffle = False]. *)
Lemma short_game_excluded df target color shuffle g :
  target ≠ [] →
  length (moves g) < plies_required color (length target) →
  ¬ (color = Some "white" ∧ shuffle = false) →
  g ∉ given_move_responses df target color shuffle.
Proof.
  intros Hne Hshort Hnot. rewrite elem_of_given_move_responses.
  intros [_ Hacc]. unfold plies_required in Hshort.
  destruct (decide (color = Some "white")) as [->|Hw].
  - rewrite bool_decide_eq_true_2 in Hshort by done.
    apply accepts_white in Hacc as [(c & Hc & Heq)|[-> _]]; [|by apply Hnot].
    apply candidate_length in Hc.
    apply full_window_long_enough in Heq; [|done].
    apply white_plies_short in Hshort. lia.
  - rewrite bool_decide_eq_false_2 in Hshort by done.
    destruct (decide (color = Some "black")) as [->|Hb].
    + rewrite bool_decide_eq_true_2 in Hshort by done.
      apply accepts_black in Hacc as (c & Hc & Heq).
      apply candidate_length in Hc.
      apply full_window_long_enough in Heq; [|done].
      apply black_plies_short in Hshort. lia.
    + rewrite bool_decide_eq_false_2 in Hshort by done.
      apply accepts_other in Hacc as (c & Hc & Heq); [|done..].
      apply candidate_length in Hc.
      apply full_window_long_enough in Heq; [|done]. lia.
Qed.

(** A game of one ply is never returned for a target of two moves. *)
Lemma one_ply_game_excluded df target color shuffle g :
  length (moves g) = 1 → length target = 2 →
  g ∉ given_move_responses df target color shuffle.
Proof.
  intros Hg Ht.
  destruct (decide (color = Some "white" ∧ shuffle = false)) as [[-> ->]|Hnot].
  - rewrite white_matches. intros [_ [(c & Hc & Heq)|[_ Heq]]].
    + apply candidate_length in Hc.
      apply full_window_long_enough in Heq; [|done].
      assert (length (white_plies (moves g)) < 2); [|lia].
      apply white_plies_short. lia.
    + apply full_window_long_enough in Heq; [|done]. lia.
  - apply short_game_excluded; [by destruct target| |done].
    rewrite Ht, Hg. unfold plies_required. repeat case_bool_decide; lia.
Qed.

(** C6, at the input where it fails: the game e4 e5 has two plies, fewer
    than the three that white's window for a target of two moves needs, and
    [given_move_responses] with [color = "white"] and [shuffle = False]
    returns it all the same. *)
Theorem short_game_returned_for_white_list :
  let g := game ["e4"; "e5"] in
  let target := ["e4"; "e5"] in
  target ≠ []
  ∧ length (moves g) < plies_required (Some "white") (length target)
  ∧ g ∈ given_move_responses [g] target (Some "white") false.
Proof.
  repeat split; [done|vm_compute; lia|]. vm_compute. by left.
Qed.

(** ** Permutations of the target *)

Lemma accepts_shuffle target color x :
  accepts target color true x = true
  ↔ ∃ c, c ≡ₚ target ∧ c = comparison_window color (length target) x.
Proof.
  unfold comparison_window.
  destruct (decide (color = Some "white")) as [->|Hw].
  - rewrite bool_decide_eq_true_2 by done. rewrite accepts_white.
    split; [intros [H|[[=] _]]; done | by left].
  - rewrite bool_decide_eq_false_2 by done.
    destruct (decide (color = Some "black")) as [->|Hb].
    + rewrite bool_decide_eq_true_2 by done. by rewrite accepts_black.
    + rewrite bool_decide_eq_false_2 by done. by rewrite accepts_other.
Qed.

Lemma accepts_permuted p target color x :
  p ≡ₚ target → accepts p color true x = accepts target color true x.
Proof.
  intros Hp. apply eq_true_iff_eq. rewrite !accepts_shuffle.
  rewrite (Permutation_length Hp).
  split; intros (c & Hc & Heq); exists c; split; try done.
  - by rewrite Hc.
  - by rewrite Hc, Hp.
Qed.

(** C7: with [shuffle = True] the games returned for a permutation [p] of
    the target are those returned for the target, for every table and every
    color argument; and a game of the table whose comparison window is [p]
    is returned for the target. *)
Theorem permuted_target_same_games df target p color :
  p ≡ₚ target →
  given_move_responses df p color true = given_move_responses df target color true
  ∧ ∀ g, g ∈ df →
         comparison_window color (length target) (moves g) = p →
         g ∈ given_move_responses df target color true.
Proof.
  intros Hp. split.
  - rewrite !given_move_responses_filter. apply list_filter_iff.
    intros g. by rewrite (accepts_permuted p target).
  - intros g Hg Hwin. rewrite elem_of_given_move_responses. split; [done|].
    apply accepts_shuffle. by exists p.
Qed.

Lemma permuted_target_same_games_witness :
  given_move_responses [game ["b"; "a"]] ["b"; "a"] None true
  = given_move_responses [game ["b"; "a"]] ["a"; "b"] None true
  ∧ ∀ g, g ∈ [game ["b"; "a"]] →
         comparison_window None (length ["a"; "b"]) (moves g) = ["b"; "a"] →
         g ∈ given_move_responses [game ["b"; "a"]] ["a"; "b"] None true.
Proof.
  apply (permuted_target_same_games [game ["b"; "a"]] ["a"; "b"] ["b"; "a"] None).
  apply Permutation_swap.
Defined.

(** ** The empty target *)

Lemma accepts_nil color shuffle x : accepts [] color shuffle x = true.
Proof.
  unfold accepts. rewrite itertools_permutations_nil.
  assert (Hitems : (if shuffle then [[]] else [[]]) = [@nil string])
    by (by destruct shuffle).
  rewrite Hitems. unfold any_item, white_cmp, black_cmp, plain_cmp, py_slice.
  repeat case_bool_decide; simpl; try done.
  by destruct x.
Qed.

(** C9: for the empty target [given_move_responses] returns the whole
    table, whatever the color and shuffle arguments; the result has as many
    games as the table, so it is empty only when the table is. *)
Theorem empty_target_returns_all df color shuffle :
  given_move_responses df [] color shuffle = df
  ∧ length (given_move_responses df [] color shuffle) = length df.
Proof.
  assert (H : given_move_responses df [] color shuffle = df); [|by rewrite H].
  rewrite given_move_responses_filter.
  induction df as [|g df IH]; [done|].
  rewrite filter_cons, IH. by rewrite accepts_nil.
Qed.

(** ** Other color arguments *)

(** C10: a color argument that is neither "white" nor "black" ([None],
    "White", ...) gives the result of the call without a color, and a game
    is returned exactly when it is in the table and some candidate equals
    its first len(target) plies. *)
Theorem other_color_is_no_color df target color shuffle :
  color ≠ Some "white" → color ≠ Some "black" →
  given_move_responses df target color shuffle
  = given_move_responses df target None shuffle
  ∧ ∀ g, g ∈ given_move_responses df target color shuffle
         ↔ g ∈ df ∧ ∃ c, candidate shuffle target c
                         ∧ c = take (length target) (moves g).
Proof.
  intros Hw Hb. split.
  - rewrite !given_move_responses_filter. apply list_filter_iff. intros g.
    unfold accepts. by rewrite !bool_decide_eq_false_2.
  - intros g. by rewrite elem_of_given_move_responses, accepts_other.
Qed.

Lemma other_color_is_no_color_witness :
  given_move_responses [game ["e4"; "e5"]] ["e4"] (Some "White") false
  = given_move_responses [game ["e4"; "e5"]] ["e4"] None false
  ∧ ∀ g, g ∈ given_move_responses [game ["e4"; "e5"]] ["e4"] (Some "White") false
         ↔ g ∈ [game ["e4"; "e5"]]
           ∧ ∃ c, candidate false ["e4"] c ∧ c = take (length ["e4"]) (moves g).
Proof.
  apply (other_color_is_no_color [game ["e4"; "e5"]] ["e4"] (Some "White") false).
  - discriminate.
  - discriminate.
Defined.

(** ** The two patterns of the importer *)

Lemma has_char_app c a b : has_char c (a +:+ b) = has_char c a || has_char c b.
Proof. induction a as [|d a IH]; simpl; [done|]. by rewrite IH, orb_assoc. Qed.

(** A string holds [c] exactly when it splits around a first [c]. *)
Lemma has_char_split c s :
  has_char c s = true
  ↔ ∃ a b, s = a +:+ String c b ∧ has_char c a = false.
Proof.
  split.
  - induction s as [|d r IH]; simpl; [done|].
    destruct (Ascii.eqb d c) eqn:Hd; simpl.
    + apply Ascii.eqb_eq in Hd as ->. intros _. by exists EmptyString, r.
    + intros Hr. destruct (IH Hr) as (a & b & -> & Ha).
      exists (String d a), b. simpl. by rewrite Hd.
  - intros (a & b & -> & _). rewrite has_char_app. simpl.
    by rewrite Ascii.eqb_refl, orb_true_r.
Qed.

Lemma match_before_colon_has_colon s g :
  match_before_colon s = Some g → has_char colon s = true.
Proof.
  revert g. induction s as [|c r IH]; intros g; simpl; [done|].
  destruct (Ascii.eqb c colon); [done|]. simpl.
  destruct (Ascii.eqb c newline); [done|].
  destruct (match_before_colon r) as [g'|]; [|done].
  intros _. by apply (IH g').
Qed.

Lemma match_after_colon_has_colon s g :
  match_after_colon s = Some g → has_char colon s = true.
Proof.
  destruct s as [|c r]; simpl; [done|]. by destruct (Ascii.eqb c colon).
Qed.

Lemma re_search_has_char m c s g :
  (∀ s g, m s = Some g → has_char c s = true) →
  re_search m s = Some g → has_char c s = true.
Proof.
  intros Hm. induction s as [|d r IH]; simpl.
  - destruct (m EmptyString) eqn:Hs; [|done]. intros _. by apply Hm in Hs.
  - destruct (m (String d r)) eqn:Hs.
    + intros _. by apply Hm in Hs.
    + intros Hr. by rewrite (IH Hr), orb_true_r.
Qed.

(** Without a colon neither pattern matches anywhere. *)
Lemma str_extract_no_colon s :
  has_char colon s = false →
  str_extract match_before_colon (Some s) = None
  ∧ str_extract match_after_colon (Some s) = None.
Proof.
  intros Hs. simpl. split.
  - destruct (re_search match_before_colon s) as [g|] eqn:Hg; [|done].
    apply (re_search_has_char _ colon) in Hg; [congruence|].
    apply match_before_colon_has_colon.
  - destruct (re_search match_after_colon s) as [g|] eqn:Hg; [|done].
    apply (re_search_has_char _ colon) in Hg; [congruence|].
    apply match_after_colon_has_colon.
Qed.

Lemma match_before_colon_None s :
  has_char colon s = false → match_before_colon s = None.
Proof.
  intros Hs. destruct (match_before_colon s) as [g|] eqn:Hg; [|done].
  apply match_before_colon_has_colon in Hg. congruence.
Qed.

(** On a name of one line the first pattern captures the text before the
    LAST colon: the greedy star gives back as little as it can. *)
Lemma opening_is_text_before_last_colon a b :
  has_char newline a = false → has_char colon b = false →
  str_extract match_before_colon (Some (a +:+ String colon b)) = Some a.
Proof.
  intros Ha Hb. simpl.
  assert (Hm : match_before_colon (a +:+ String colon b) = Some a).
  { induction a as [|c a IH]; simpl in *.
    - by rewrite (match_before_colon_None b Hb).
    - apply orb_false_iff in Ha as [Hc Ha]. by rewrite Hc, (IH Ha). }
  destruct (a +:+ String colon b); simpl in *; by rewrite Hm.
Qed.

Lemma dot_star_one_line b : has_char newline b = false → dot_star b = b.
Proof.
  induction b as [|c b IH]; simpl; [done|].
  intros [Hc Hb]%orb_false_iff. by rewrite Hc, (IH Hb).
Qed.

(** The second pattern captures the text after the FIRST colon, to the end
    of its line. *)
Lemma variation_is_text_after_first_colon a b :
  has_char colon a = false →
  str_extract match_after_colon (Some (a +:+ String colon b)) = Some (dot_star b).
Proof.
  intros Ha. simpl. induction a as [|c a IH]; simpl in *; [done|].
  apply orb_false_iff in Ha as [Hc Ha]. by rewrite Hc, (IH Ha).
Qed.

(** ** The importer, row by row *)

Lemma mapM_Ok_lookup {A B} (f : A → result B) l k i x :
  mapM f l = Ok k → l !! i = Some x → ∃ y, k !! i = Some y ∧ f x = Ok y.
Proof.
  revert k i. induction l as [|a l IH]; intros k i; [done|].
  cbn. destruct (f a) as [b|e] eqn:Hfa; [|done]. cbn.
  destruct (mapM f l) as [k'|e] eqn:Hl; [|done]. cbn.
  intros [= <-]. destruct i as [|i]; cbn.
  - intros [= <-]. by exists b.
  - by apply IH.
Qed.

Lemma mapM_Ok_intro {A B} (f : A → result B) l :
  Forall (λ x, ∃ y, f x = Ok y) l →
  ∃ k, mapM f l = Ok k ∧ Forall2 (λ x y, f x = Ok y) l k.
Proof.
  induction 1 as [|a l [b Hb] _ (k & Hk & Hall)].
  - by exists [].
  - exists (b :: k). cbn. rewrite Hb. cbn. rewrite Hk. cbn. by split; [|constructor].
Qed.

(** What the importer makes of the i-th raw game when it returns. *)
Lemma get_player_games_row games_list games_df i x o :
  get_player_games games_list = Ok games_df →
  games_list !! i = Some x → raw_opening x = Some o →
  ∃ g, games_df !! i = Some g
       ∧ normalise_row (filter (λ kv, kv.1 ∈ ["winner"; "status"; "name"; "moves"])
                               (o ∪ raw_fields x)) = Ok g.
Proof.
  unfold get_player_games. intros Hget Hx Ho.
  destruct (mapM merge_opening games_list) as [rows|e] eqn:Hrows; [|done].
  cbn in Hget.
  destruct (select_columns _ rows) as [sel|e] eqn:Hsel; [|done]. cbn in Hget.
  destruct (mapM_Ok_lookup _ _ _ _ _ Hrows Hx) as (row & Hrow & Hmerge).
  unfold merge_opening in Hmerge. rewrite Ho in Hmerge.
  injection Hmerge as <-.
  unfold select_columns in Hsel. destruct (forallb _ _); [|done].
  injection Hsel as <-.
  apply (mapM_Ok_lookup _ _ _ i _ Hget).
  by rewrite list_lookup_fmap, Hrow.
Qed.

Lemma selected_name (o fields : gmap string string) name :
  o !! "name" = Some name →
  filter (λ kv, kv.1 ∈ ["winner"; "status"; "name"; "moves"]) (o ∪ fields) !! "name"
  = Some name.
Proof.
  intros Hname. apply map_lookup_filter_Some. split.
  - by apply lookup_union_Some_l.
  - simpl. set_solver.
Qed.

(** C3, at the input where it fails: on the empty list of games the frame
    of line 47 has no columns, so the selection of line 48 raises
    [KeyError]; no empty table is returned. *)
Theorem empty_games_list_raises :
  get_player_games [] = Raise KeyError
  ∧ get_player_games [] ≠ Ok [].
Proof. split; [reflexivity|discriminate]. Qed.

(** C4: when the importer returns and the opening name of the i-th raw game
    holds no colon, the i-th row has the whole name as [opening] and no
    [variation] (NaN, not the empty string). *)
Theorem no_colon_name_is_opening games_list games_df i x o name :
  get_player_games games_list = Ok games_df →
  games_list !! i = Some x →
  raw_opening x = Some o → o !! "name" = Some name →
  has_char colon name = false →
  ∃ g, games_df !! i = Some g
       ∧ opening g = Some name ∧ variation g = None ∧ variation g ≠ Some "".
Proof.
  intros Hget Hx Ho Hname Hcolon.
  destruct (get_player_games_row _ _ _ _ _ Hget Hx Ho) as (g & Hg & Hrow).
  exists g. split; [done|].
  unfold normalise_row in Hrow.
  rewrite (selected_name _ _ _ Hname) in Hrow.
  destruct (str_extract_no_colon name Hcolon) as [Hop Hvar].
  rewrite Hop, Hvar in Hrow.
  destruct (_ !! "moves") as [mv|]; [|done]. cbn in Hrow.
  injection Hrow as <-. by cbn.
Qed.

Lemma no_colon_name_is_opening_witness :
  ∃ g, [{| winner := None; status := Some "draw"; opening := Some "English Opening";
           variation := None; moves := ["c4"; "e5"] |};
        {| winner := Some "white"; status := Some "mate";
           opening := Some "Sicilian Defense";
           variation := Some " Najdorf Variation";
           moves := ["e4"; "c5"] |}] !! 0 = Some g
       ∧ opening g = Some "English Opening" ∧ variation g = None
       ∧ variation g ≠ Some "".
Proof.
  apply (no_colon_name_is_opening
           [raw None "draw" "English Opening" "c4 e5";
            raw (Some "white") "mate" "Sicilian Defense: Najdorf Variation" "e4 c5"]
           _ 0
           (raw None "draw" "English Opening" "c4 e5")
           (<["eco" := "B90"]> {["name" := "English Opening"]})
           "English Opening").
  - vm_compute. reflexivity.
  - reflexivity.
  - reflexivity.
  - vm_compute. reflexivity.
  - reflexivity.
Defined.

(** The importer returns a table, one row per game, when every game has an
    "opening" dict and a "moves" string and each of the four columns of line
    48 occurs in some game. *)
Lemma get_player_games_returns games_list :
  let merged x c := o ← raw_opening x; (o ∪ raw_fields x) !! c in
  Forall (λ x, is_Some (merged x "moves")) games_list →
  (∀ c, c ∈ ["winner"; "status"; "name"; "moves"] →
        Exists (λ x, is_Some (merged x c)) games_list) →
  ∃ games_df, get_player_games games_list = Ok games_df
              ∧ length games_df = length games_list.
Proof.
  intros merged Hmoves Hcols.
  destruct (mapM_Ok_intro merge_opening games_list) as (rows & Hrows & Hall).
  { eapply Forall_impl; [exact Hmoves|]. intros x [v Hv]. unfold merged in Hv.
    unfold merge_opening. destruct (raw_opening x); [by eexists|done]. }
  assert (Hmerged : ∀ i x row c, games_list !! i = Some x → rows !! i = Some row →
            merged x c = row !! c).
  { intros i x row c Hx Hrow.
    destruct (Forall2_lookup_l _ _ _ _ _ Hall Hx) as (row' & Hrow' & Hm).
    rewrite Hrow in Hrow'. injection Hrow' as <-.
    unfold merge_opening in Hm. unfold merged.
    destruct (raw_opening x); [|done]. by injection Hm as <-. }
  assert (Hlen := Forall2_length _ _ _ Hall).
  assert (Hsel : select_columns ["winner"; "status"; "name"; "moves"] rows
                 = Ok (filter (λ kv, kv.1 ∈ ["winner"; "status"; "name"; "moves"])
                         <$> rows)).
  { unfold select_columns.
    assert (forallb (has_column rows) ["winner"; "status"; "name"; "moves"] = true)
      as ->; [|done].
    apply forallb_forall. intros c Hc%list_elem_of_In.
    apply bool_decide_eq_true. apply Exists_exists.
    apply Hcols, Exists_exists in Hc as (x & Hx & Hsome).
    apply list_elem_of_lookup in Hx as [i Hi].
    destruct (Forall2_lookup_l _ _ _ _ _ Hall Hi) as (row & Hrow & _).
    exists row. split; [by eapply list_elem_of_lookup_2|].
    by rewrite <- (Hmerged i x row c). }
  destruct (mapM_Ok_intro normalise_row
              (filter (λ kv, kv.1 ∈ ["winner"; "status"; "name"; "moves"]) <$> rows))
    as (games_df & Hdf & Hall').
  { apply Forall_fmap, Forall_lookup. intros i row Hrow. simpl.
    destruct (lookup_lt_is_Some_2 games_list i) as [x Hx].
    { rewrite Hlen. by eapply lookup_lt_Some. }
    rewrite Forall_lookup in Hmoves. destruct (Hmoves i x Hx) as [mv Hmv].
    rewrite (Hmerged i x row "moves" Hx Hrow) in Hmv.
    unfold normalise_row.
    assert (filter (λ kv, kv.1 ∈ ["winner"; "status"; "name"; "moves"]) row
              !! "moves" = Some mv) as ->; [|by eexists].
    apply map_lookup_filter_Some. split; [done|]. simpl. set_solver. }
  exists games_df. split.
  - unfold get_player_games. rewrite Hrows. cbn. rewrite Hsel. by cbn.
  - apply Forall2_length in Hall'. rewrite length_fmap in Hall'. lia.
Qed.

(** What the importer does with a name that holds a colon: [variation] is
    the text after the first colon (to the end of the line), [opening] the
    text before the last one. *)
Lemma importer_variation_after_first_colon games_list games_df i x o a b :
  get_player_games games_list = Ok games_df →
  games_list !! i = Some x →
  raw_opening x = Some o → o !! "name" = Some (a +:+ String colon b) →
  has_char colon a = false →
  ∃ g, games_df !! i = Some g ∧ variation g = Some (dot_star b).
Proof.
  intros Hget Hx Ho Hname Ha.
  destruct (get_player_games_row _ _ _ _ _ Hget Hx Ho) as (g & Hg & Hrow).
  exists g. split; [done|].
  unfold normalise_row in Hrow.
  rewrite (selected_name _ _ _ Hname) in Hrow.
  rewrite (variation_is_text_after_first_colon a b Ha) in Hrow.
  destruct (_ !! "moves") as [mv|]; [|done]. cbn in Hrow.
  by injection Hrow as <-.
Qed.

Lemma importer_opening_before_last_colon games_list games_df i x o a b :
  get_player_games games_list = Ok games_df →
  games_list !! i = Some x →
  raw_opening x = Some o → o !! "name" = Some (a +:+ String colon b) →
  has_char newline a = false → has_char colon b = false →
  ∃ g, games_df !! i = Some g ∧ opening g = Some a.
Proof.
  intros Hget Hx Ho Hname Ha Hb.
  destruct (get_player_games_row _ _ _ _ _ Hget Hx Ho) as (g & Hg & Hrow).
  exists g. split; [done|].
  unfold normalise_row in Hrow.
  rewrite (selected_name _ _ _ Hname) in Hrow.
  rewrite (opening_is_text_before_last_colon a b Ha Hb) in Hrow.
  destruct (_ !! "moves") as [mv|]; [|done]. cbn in Hrow.
  by injection Hrow as <-.
Qed.

(** C2, at the input where it fails: for a name with two colons the
    importer takes as [opening] the text before the last colon, not the text
    before the first one, while [variation] starts after the first colon; the
    two overlap and do not split the name around one colon. *)
Theorem two_colons_opening_runs_to_last_colon :
  let name := "Sicilian Defense: Najdorf Variation: English Attack" in
  get_player_games [raw (Some "white") "mate" name "e4 c5 Nf3 d6"]
  = Ok [{| winner := Some "white"; status := Some "mate";
           opening := Some "Sicilian Defense: Najdorf Variation";
           variation := Some " Najdorf Variation: English Attack";
           moves := ["e4"; "c5"; "Nf3"; "d6"] |}]
  ∧ name = "Sicilian Defense" +:+ String colon " Najdorf Variation: English Attack"
  ∧ has_char colon "Sicilian Defense" = false.
Proof. repeat split; vm_compute; reflexivity. Qed.

(** ** The frequency reports *)

#[local] Instance by_count_desc_trans : Transitive by_count_desc.
Proof. intros a b c. unfold by_count_desc. lia. Qed.

#[local] Instance by_count_desc_total : Total by_count_desc.
Proof. intros a b. unfold by_count_desc. lia. Qed.

Lemma occurrences_cons v w vs :
  occurrences v (w :: vs) = (if bool_decide (w = v) then 1 else 0) + occurrences v vs.
Proof.
  unfold occurrences. rewrite filter_cons.
  case_bool_decide; by case_decide.
Qed.

Lemma count_of_bump v acc w :
  count_of (bump v acc) w = count_of acc w + (if bool_decide (v = w) then 1 else 0).
Proof.
  induction acc as [|[k n] rest IH]; simpl; [done|].
  repeat (case_bool_decide; simpl); subst; try done; try lia.
Qed.

Lemma bump_keys v acc k :
  k ∈ (bump v acc).*1 → k = v ∨ k ∈ acc.*1.
Proof.
  induction acc as [|[k' n] rest IH]; simpl.
  - intros ->%list_elem_of_singleton. by left.
  - case_bool_decide; simpl; [by right|].
    intros [->|Hin]%elem_of_cons; [right; by left|].
    destruct (IH Hin); [by left|right; by right].
Qed.

Lemma bump_ok v acc : tally_ok acc → tally_ok (bump v acc).
Proof.
  unfold tally_ok. induction acc as [|[k n] rest IH]; simpl.
  - intros _. split; [apply NoDup_singleton|]. constructor; [simpl; lia|done].
  - intros [[Hk Hnd]%NoDup_cons [Hn Hpos]%Forall_cons]. simpl in Hn.
    case_bool_decide; simpl.
    + split; [by apply NoDup_cons|]. constructor; [simpl; lia|done].
    + destruct IH as [IHnd IHpos]; [done|].
      split; [|by constructor].
      apply NoDup_cons. split; [|done].
      intros [->|Hin]%bump_keys; done.
Qed.

Lemma count_of_not_key acc v : v ∉ acc.*1 → count_of acc v = 0.
Proof.
  induction acc as [|[k n] rest IH]; simpl; [done|].
  intros Hnot. case_bool_decide; subst.
  - destruct Hnot. by left.
  - apply IH. intros Hin. apply Hnot. by right.
Qed.

Lemma elem_of_tally_ok acc v c :
  tally_ok acc → (v, c) ∈ acc ↔ c = count_of acc v ∧ 0 < c.
Proof.
  unfold tally_ok. induction acc as [|[k n] rest IH]; simpl.
  - intros _. split; [by intros ?%elem_of_nil|lia].
  - intros [[Hk Hnd]%NoDup_cons [Hn Hpos]%Forall_cons]. simpl in Hn.
    rewrite elem_of_cons, IH by done. case_bool_decide; subst.
    + split.
      * intros [Heq|[-> Hc]]; [by simplify_eq|].
        rewrite count_of_not_key in Hc by done. lia.
      * intros [-> _]. by left.
    + split.
      * intros [Heq|H']; [by simplify_eq|done].
      * intros H'. by right.
Qed.

Lemma tally_from_spec vs : ∀ acc,
  tally_ok acc →
  tally_ok (fold_left (λ acc v, bump v acc) vs acc)
  ∧ ∀ w, count_of (fold_left (λ acc v, bump v acc) vs acc) w
         = count_of acc w + occurrences w vs.
Proof.
  induction vs as [|v vs IH]; intros acc Hok; simpl.
  - split; [done|]. intros w. unfold occurrences. simpl. lia.
  - destruct (IH (bump v acc) (bump_ok v acc Hok)) as [Hok' Hcount].
    split; [done|]. intros w.
    rewrite Hcount, count_of_bump, occurrences_cons. lia.
Qed.

Lemma elem_of_tally vs v c :
  (v, c) ∈ tally vs ↔ c = occurrences v vs ∧ 0 < c.
Proof.
  unfold tally.
  destruct (tally_from_spec vs []) as [Hok Hcount].
  { split; [apply NoDup_nil_2|done]. }
  rewrite elem_of_tally_ok by done. by rewrite Hcount.
Qed.

Lemma occurrences_dropna (col : list (option string)) v :
  occurrences v (omap id col) = length (filter (λ cell, cell = Some v) col).
Proof.
  induction col as [|[w|] col IH]; [done| |].
  - cbn [omap list_omap id]. rewrite occurrences_cons, filter_cons, IH.
    case_bool_decide; case_decide; simplify_eq; done.
  - cbn [omap list_omap id]. by rewrite filter_cons, IH.
Qed.

(** [value_counts]: descending counts, every value once, each with the
    number of cells that hold it. *)
Lemma value_counts_spec col :
  StronglySorted by_count_desc (value_counts col)
  ∧ NoDup (value_counts col).*1
  ∧ ∀ v c, (v, c) ∈ value_counts col
           ↔ c = length (filter (λ cell, cell = Some v) col) ∧ 0 < c.
Proof.
  unfold value_counts. split; [|split].
  - apply StronglySorted_merge_sort; apply _.
  - rewrite merge_sort_Permutation. unfold tally.
    destruct (tally_from_spec (omap id col) []) as [[Hnd _] _]; [|done].
    split; [apply NoDup_nil_2|done].
  - intros v c. rewrite merge_sort_Permutation, elem_of_tally.
    by rewrite occurrences_dropna.
Qed.

Lemma length_filter_column (f : GameRecord → option string) v df :
  length (filter (λ cell, cell = Some v) (f <$> df))
  = length (filter (λ g, f g = Some v) df).
Proof.
  induction df as [|g df IH]; [done|].
  rewrite fmap_cons, !filter_cons. case_decide; simpl; by rewrite IH.
Qed.

Lemma boolean_index_not_win color games_df :
  boolean_index games_df (not_win_mask color games_df)
  = filter (λ g, winner g = Some (opposite_color color) ∨ winner g = None) games_df.
Proof.
  unfold boolean_index, not_win_mask.
  induction games_df as [|g df IH]; [done|].
  rewrite filter_cons, <- IH. cbn.
  repeat case_bool_decide; case_decide; simpl; try done; tauto.
Qed.

(** The status report for any color string, in terms of the color that the
    script takes for the opposite one. *)
Lemma not_win_report_spec color games_df :
  StronglySorted by_count_desc (not_win_report color games_df)
  ∧ NoDup (not_win_report color games_df).*1
  ∧ ∀ v c, (v, c) ∈ not_win_report color games_df
           ↔ c = length (filter
                           (λ g, status g = Some v
                                 ∧ (winner g = Some (opposite_color color)
                                    ∨ winner g = None)) games_df)
             ∧ 0 < c.
Proof.
  unfold not_win_report. rewrite boolean_index_not_win.
  destruct (value_counts_spec
              (status <$> filter (λ g, winner g = Some (opposite_color color)
                                       ∨ winner g = None) games_df))
    as (Hs & Hnd & Hc).
  split; [done|]. split; [done|]. intros v c.
  by rewrite Hc, length_filter_column, list_filter_filter.
Qed.

(** C8: both reports are in descending order of count, list every value
    once, and give each value the number of games that hold it: the opening
    report among all games; the status report, for a player with the black
    pieces, among the games whose winner is "white" or is missing, and for a
    player with the white pieces among the games whose winner is "black" or
    is missing. For the openings A, B, A, A, B the report is A 3, B 2. *)
Theorem reports_count_in_descending_order games_df :
  (StronglySorted by_count_desc (opening_report games_df)
   ∧ NoDup (opening_report games_df).*1
   ∧ ∀ v c, (v, c) ∈ opening_report games_df
            ↔ c = length (filter (λ g, opening g = Some v) games_df) ∧ 0 < c)
  ∧ (StronglySorted by_count_desc (not_win_report "black" games_df)
     ∧ NoDup (not_win_report "black" games_df).*1
     ∧ ∀ v c, (v, c) ∈ not_win_report "black" games_df
              ↔ c = length (filter
                              (λ g, status g = Some v
                                    ∧ (winner g = Some "white"
                                       ∨ winner g = None)) games_df)
                ∧ 0 < c)
  ∧ (StronglySorted by_count_desc (not_win_report "white" games_df)
     ∧ NoDup (not_win_report "white" games_df).*1
     ∧ ∀ v c, (v, c) ∈ not_win_report "white" games_df
              ↔ c = length (filter
                              (λ g, status g = Some v
                                    ∧ (winner g = Some "black"
                                       ∨ winner g = None)) games_df)
                ∧ 0 < c)
  ∧ opening_report
      ((λ o, {| winner := None; status := None; opening := Some o;
                variation := None; moves := [] |}) <$> ["A"; "B"; "A"; "A"; "B"])
    = [("A", 3); ("B", 2)].
Proof.
  split; [|split; [|split; [|reflexivity]]].
  - unfold opening_report.
    destruct (value_counts_spec (opening <$> games_df)) as (Hs & Hnd & Hc).
    split; [done|]. split; [done|]. intros v c.
    by rewrite Hc, length_filter_column.
  - exact (not_win_report_spec "black" games_df).
  - exact (not_win_report_spec "white" games_df).
Qed.

(** ** The importer on sample records *)

Example split_moves : py_split "e4 e5 Nf3 Nc6" = ["e4"; "e5"; "Nf3"; "Nc6"].
Proof. reflexivity. Qed.

Example split_moves_runs_of_whitespace : py_split "  e4   e5 " = ["e4"; "e5"].
Proof. reflexivity. Qed.

Example import_one_colon_and_none :
  get_player_games
    [raw (Some "black") "resign" "Sicilian Defense: Najdorf Variation" "e4 c5";
     raw None "draw" "English Opening" "c4 e5"]
  = Ok [{| winner := Some "black"; status := Some "resign";
           opening := Some "Sicilian Defense";
           variation := Some " Najdorf Variation"; moves := ["e4"; "c5"] |};
        {| winner := None; status := Some "draw";
           opening := Some "English Opening";
           variation := None; moves := ["c4"; "e5"] |}].
Proof. vm_compute. reflexivity. Qed.

(** When no game of the list has a winner the frame has no "winner" column
    and line 48 raises. *)
Example import_draws_only_raises :
  get_player_games [raw None "draw" "English Opening" "c4 e5"] = Raise KeyError.
Proof. vm_compute. reflexivity. Qed.

Example permutations_order :
  itertools_permutations ["a"; "b"; "c"]
  = [["a"; "b"; "c"]; ["a"; "c"; "b"]; ["b"; "a"; "c"];
     ["b"; "c"; "a"]; ["c"; "a"; "b"]; ["c"; "b"; "a"]].
Proof. reflexivity. Qed.

(** * Further properties *)

(** ** The matcher *)

(** X1: the games that [given_move_responses] returns are games of the
    table, in the order of the table and none more often than there: the
    result is a sublist of the table, whatever the arguments. *)
Theorem matcher_returns_sublist df target color shuffle :
  given_move_responses df target color shuffle `sublist_of` df
  ∧ length (given_move_responses df target color shuffle) ≤ length df.
Proof.
  rewrite given_move_responses_filter. split.
  - apply sublist_filter.
  - apply length_filter.
Qed.

(** X2: with [color = "white"] and [shuffle = True] (the default) a game is
    returned exactly when it is in the table and some arrangement of the
    target equals white's first len(target) plies: the permutation iterator
    is used up by the loop of line 100 and the loop of line 106 adds
    nothing. *)
Theorem white_shuffle_uses_white_window df target g :
  g ∈ given_move_responses df target (Some "white") true
  ↔ g ∈ df ∧ ∃ c, c ≡ₚ target
                  ∧ c = take (length target) (white_plies (moves g)).
Proof.
  rewrite white_matches. unfold candidate.
  split; [intros [Hg [H|[[=] _]]]; by split | intros [Hg H]; split; [done|by left]].
Qed.

(** X3: with [color = "white"] and [shuffle = False] the result is the table
    filtered by "white's first len(target) plies are the target, or the
    first len(target) plies are the target": both loops of lines 100 and 106
    run over the list. *)
Theorem white_list_is_window_or_prefix df target :
  given_move_responses df target (Some "white") false
  = filter (λ g, target = take (length target) (white_plies (moves g))
                 ∨ target = take (length target) (moves g)) df.
Proof.
  rewrite given_move_responses_filter. apply list_filter_iff. intros g.
  rewrite Is_true_true, accepts_white. unfold candidate.
  split.
  - intros [(c & -> & Hc)|[_ Hp]]; [by left|by right].
  - intros [Hw|Hp]; [left; by exists target|by right].
Qed.

(** X4: a returned game has the plies that its window needs (2N-1 for
    "white", 2N for "black", N otherwise, for a target of N > 0 moves), in
    every call but the one with [color = "white"] and [shuffle = False]. *)
Theorem returned_game_fills_window df target color shuffle g :
  target ≠ [] →
  ¬ (color = Some "white" ∧ shuffle = false) →
  g ∈ given_move_responses df target color shuffle →
  plies_required color (length target) ≤ length (moves g).
Proof.
  intros Hne Hnot Hin.
  destruct (decide (plies_required color (length target) ≤ length (moves g)))
    as [|Hshort]; [done|].
  exfalso. revert Hin. apply short_game_excluded; [done|lia|done].
Qed.

Lemma returned_game_fills_window_witness :
  plies_required (Some "black") (length ["e5"]) ≤ length (moves (game ["e4"; "e5"])).
Proof.
  apply (returned_game_fills_window [game ["e4"; "e5"]] ["e5"] (Some "black") false).
  - discriminate.
  - intros [[=] _].
  - vm_compute. by left.
Defined.

(** X5: in every call a returned game has at least as many plies as the
    target has moves. *)
Theorem returned_game_not_shorter_than_target df target color shuffle g :
  g ∈ given_move_responses df target color shuffle →
  length target ≤ length (moves g).
Proof.
  rewrite elem_of_given_move_responses. intros [_ Hacc].
  assert (Hw : length (white_plies (moves g)) ≤ length (moves g)).
  { destruct (plies_from_length (moves g)) as [H _].
    pose proof (Nat.Div0.mod_le (length (moves g)) 2). lia. }
  assert (Hb : length (black_plies (moves g)) ≤ length (moves g)).
  { destruct (plies_from_length (moves g)) as [_ H]. lia. }
  destruct (decide (color = Some "white")) as [->|Hcw].
  - apply accepts_white in Hacc as [(c & Hc & Heq)|[_ Heq]].
    + apply candidate_length in Hc.
      apply full_window_long_enough in Heq; [lia|done].
    + by apply full_window_long_enough in Heq.
  - destruct (decide (color = Some "black")) as [->|Hcb].
    + apply accepts_black in Hacc as (c & Hc & Heq).
      apply candidate_length in Hc.
      apply full_window_long_enough in Heq; [lia|done].
    + apply accepts_other in Hacc as (c & Hc & Heq); [|done..].
      apply candidate_length in Hc.
      by apply full_window_long_enough in Heq.
Qed.

Lemma returned_game_not_shorter_than_target_witness :
  length ["e4"] ≤ length (moves (game ["e4"; "e5"])).
Proof.
  apply (returned_game_not_shorter_than_target
           [game ["e4"; "e5"]] ["e4"] None true).
  vm_compute. by left.
Defined.

(** X6: unless the color is "white", a game returned without permutations
    is also returned with them: the target is one of its own arrangements. *)
Theorem shuffle_returns_more df target color g :
  color ≠ Some "white" →
  g ∈ given_move_responses df target color false →
  g ∈ given_move_responses df target color true.
Proof.
  intros Hcw. rewrite !elem_of_given_move_responses.
  intros [Hg Hacc]. split; [done|].
  destruct (decide (color = Some "black")) as [->|Hcb].
  - apply accepts_black. apply accepts_black in Hacc as (c & -> & Heq).
    exists target. by split; [unfold candidate|].
  - apply accepts_other; [done..|].
    apply accepts_other in Hacc as (c & -> & Heq); [|done..].
    exists target. by split; [unfold candidate|].
Qed.

Lemma shuffle_returns_more_witness :
  game ["e4"; "e5"] ∈ given_move_responses [game ["e4"; "e5"]] ["e5"] (Some "black") true.
Proof.
  apply (shuffle_returns_more [game ["e4"; "e5"]] ["e5"] (Some "black")).
  - discriminate.
  - vm_compute. by left.
Defined.

(** X7: without a color and without permutations the games returned are the
    games of the table whose moves start with the target. *)
Theorem no_color_list_is_prefix_test df target g :
  g ∈ given_move_responses df target None false
  ↔ g ∈ df ∧ target `prefix_of` moves g.
Proof.
  rewrite elem_of_given_move_responses, accepts_other by done.
  unfold candidate. split; intros [Hg H]; (split; [done|]).
  - destruct H as (c & -> & Heq). rewrite Heq. apply prefix_take.
  - exists target. split; [done|]. destruct H as [k ->].
    by rewrite take_app_length.
Qed.

(** ** The candidates of line 92 *)

Lemma selections_length {A} (pool : list A) :
  length (selections pool) = length pool.
Proof. induction pool as [|a r IH]; simpl; [done|]. by rewrite length_map, IH. Qed.

Lemma itertools_permutations_r_length {A} r : ∀ pool : list A,
  length pool = r → length (itertools_permutations_r r pool) = fact r.
Proof.
  induction r as [|r IH]; intros pool Hlen; [done|].
  cbn [itertools_permutations_r].
  rewrite (flat_map_constant_length (c := fact r)).
  - rewrite selections_length, Hlen. simpl. lia.
  - intros [a rest] Hsel. simpl. rewrite length_map. apply IH.
    apply selections_sound, Permutation_length in Hsel. simpl in Hsel. lia.
Qed.

(** X8: [itertools.permutations(moves)] yields N! candidates for a target of
    N moves, equal arrangements of repeated moves included, and every one of
    them has N moves. *)
Theorem permutations_yields_factorial_many (target : list string) :
  length (itertools_permutations target) = fact (length target)
  ∧ Forall (λ c, length c = length target) (itertools_permutations target).
Proof.
  split.
  - by apply itertools_permutations_r_length.
  - apply Forall_forall. intros c Hc%elem_of_itertools_permutations.
    by apply Permutation_length.
Qed.

(** ** The importer: errors *)

Lemma mapM_Ok_Forall2 {A B} (f : A → result B) l k :
  mapM f l = Ok k → Forall2 (λ x y, f x = Ok y) l k.
Proof.
  revert k. induction l as [|a l IH]; intros k; cbn.
  - intros [= <-]. constructor.
  - destruct (f a) as [b|e] eqn:Hfa; [|done]. cbn.
    destruct (mapM f l) as [k'|e] eqn:Hl; [|done]. cbn.
    intros [= <-]. constructor; [done|by apply IH].
Qed.

Lemma mapM_Raise_inv {A B} (f : A → result B) l e :
  mapM f l = Raise e → ∃ x, x ∈ l ∧ f x = Raise e.
Proof.
  induction l as [|a l IH]; cbn; [done|].
  destruct (f a) as [b|e'] eqn:Hfa; cbn.
  - destruct (mapM f l) as [k'|e'] eqn:Hl; cbn; [done|].
    intros [= ->]. destruct IH as (x & Hx & Hfx); [done|].
    exists x. split; [by right|done].
  - intros [= ->]. exists a. split; [by left|done].
Qed.

Lemma mapM_Raise_intro {A B} (f : A → result B) l i x e :
  l !! i = Some x → f x = Raise e → ∃ e', mapM f l = Raise e'.
Proof.
  intros Hx Hfx. destruct (mapM f l) as [k|e'] eqn:Hl; [|by eexists].
  destruct (mapM_Ok_lookup _ _ _ _ _ Hl Hx) as (y & _ & Hy). congruence.
Qed.

Lemma merge_opening_raises x e : merge_opening x = Raise e → e = KeyError.
Proof. unfold merge_opening. destruct (raw_opening x); [done|by intros [= <-]]. Qed.

Lemma normalise_row_raises row e : normalise_row row = Raise e → e = AttributeError.
Proof.
  unfold normalise_row. destruct (row !! "moves"); cbn; [done|by intros [= <-]].
Qed.

Lemma merge_opening_cell x row c :
  merge_opening x = Ok row → row !! c = merged_cell x c.
Proof.
  unfold merge_opening, merged_cell. destruct (raw_opening x); [|done].
  by intros [= <-].
Qed.

Lemma selected_cell (row : gmap string string) c :
  c ∈ ["winner"; "status"; "name"; "moves"] →
  filter (λ kv, kv.1 ∈ ["winner"; "status"; "name"; "moves"]) row !! c = row !! c.
Proof.
  intros Hc. destruct (row !! c) as [v|] eqn:Hv.
  - by apply map_lookup_filter_Some.
  - apply map_lookup_filter_None. by left.
Qed.

Lemma missing_opening_raises_aux games_list i x :
  games_list !! i = Some x → raw_opening x = None →
  get_player_games games_list = Raise KeyError.
Proof.
  intros Hx Hopening. unfold get_player_games.
  destruct (mapM_Raise_intro merge_opening games_list i x KeyError Hx)
    as [e He].
  { unfold merge_opening. by rewrite Hopening. }
  rewrite He. cbn.
  apply mapM_Raise_inv in He as (x' & _ & He). by apply merge_opening_raises in He as ->.
Qed.

(** X9: a game without the key "opening" makes the whole import raise
    [KeyError], wherever it stands in the list. *)
Theorem missing_opening_raises games_list i x :
  games_list !! i = Some x → raw_opening x = None →
  get_player_games games_list = Raise KeyError.
Proof. apply missing_opening_raises_aux. Qed.

Lemma missing_opening_raises_witness :
  get_player_games
    [raw None "draw" "English Opening" "c4 e5";
     {| raw_fields := {["moves" := "e4 e5"]}; raw_opening := None |}]
  = Raise KeyError.
Proof.
  apply (missing_opening_raises _ 1
           {| raw_fields := {["moves" := "e4 e5"]}; raw_opening := None |});
    reflexivity.
Defined.

(** X10: when one of the columns "winner", "status", "name", "moves" occurs
    in no game of the list (no game has a winner, say, or the list is
    empty), the import raises [KeyError]. *)
Theorem missing_column_raises games_list c :
  c ∈ ["winner"; "status"; "name"; "moves"] →
  Forall (λ x, merged_cell x c = None) games_list →
  get_player_games games_list = Raise KeyError.
Proof.
  intros Hc Hnone. unfold get_player_games.
  destruct (mapM merge_opening games_list) as [rows|e] eqn:Hrows; cbn.
  - apply mapM_Ok_Forall2 in Hrows.
    assert (Hcol : has_column rows c = false).
    { apply bool_decide_eq_false. rewrite Exists_exists.
      intros (row & Hrow & Hsome).
      apply list_elem_of_lookup in Hrow as [i Hi].
      destruct (Forall2_lookup_r _ _ _ _ _ Hrows Hi) as (x & Hx & Hm).
      rewrite (merge_opening_cell _ _ c Hm) in Hsome.
      rewrite Forall_lookup in Hnone. rewrite (Hnone i x Hx) in Hsome.
      by destruct Hsome. }
    unfold select_columns.
    destruct (forallb _ _) eqn:Hall; [|done].
    rewrite forallb_forall in Hall.
    rewrite Hall in Hcol; [done|by apply list_elem_of_In].
  - apply mapM_Raise_inv in Hrows as (x & _ & He).
    by apply merge_opening_raises in He as ->.
Qed.

Lemma missing_column_raises_witness :
  get_player_games
    [raw None "draw" "English Opening" "c4 e5";
     raw None "stalemate" "Sicilian Defense: Najdorf Variation" "e4 c5"]
  = Raise KeyError.
Proof.
  apply (missing_column_raises _ "winner").
  - set_solver.
  - repeat constructor.
Defined.

(** X11: when every game has an "opening" dict and each of the four columns
    occurs in some game, a game without "moves" makes the import raise
    [AttributeError]: its cell is NaN and line 62 calls [split] on it. *)
Theorem missing_moves_raises games_list i x :
  Forall (λ x, is_Some (raw_opening x)) games_list →
  (∀ c, c ∈ ["winner"; "status"; "name"; "moves"] →
        Exists (λ x, is_Some (merged_cell x c)) games_list) →
  games_list !! i = Some x → merged_cell x "moves" = None →
  get_player_games games_list = Raise AttributeError.
Proof.
  intros Hopening Hcols Hx Hmoves.
  destruct (mapM_Ok_intro merge_opening games_list) as (rows & Hrows & Hall).
  { eapply Forall_impl; [exact Hopening|]. intros y [o Ho].
    unfold merge_opening. rewrite Ho. by eexists. }
  assert (Hsel : select_columns ["winner"; "status"; "name"; "moves"] rows
                 = Ok (filter (λ kv, kv.1 ∈ ["winner"; "status"; "name"; "moves"])
                         <$> rows)).
  { unfold select_columns.
    assert (forallb (has_column rows) ["winner"; "status"; "name"; "moves"] = true)
      as ->; [|done].
    apply forallb_forall. intros c Hc%list_elem_of_In.
    apply bool_decide_eq_true. apply Exists_exists.
    apply Hcols, Exists_exists in Hc as (y & Hy & Hsome).
    apply list_elem_of_lookup in Hy as [j Hj].
    destruct (Forall2_lookup_l _ _ _ _ _ Hall Hj) as (row & Hrow & Hm).
    exists row. split; [by eapply list_elem_of_lookup_2|].
    by rewrite (merge_opening_cell _ _ c Hm). }
  unfold get_player_games. rewrite Hrows. cbn. rewrite Hsel. cbn.
  destruct (Forall2_lookup_l _ _ _ _ _ Hall Hx) as (row & Hrow & Hm).
  destruct (mapM_Raise_intro normalise_row
              (filter (λ kv, kv.1 ∈ ["winner"; "status"; "name"; "moves"]) <$> rows)
              i (filter (λ kv, kv.1 ∈ ["winner"; "status"; "name"; "moves"]) row)
              AttributeError) as [e He].
  { by rewrite list_lookup_fmap, Hrow. }
  { unfold normalise_row. rewrite (selected_cell row "moves") by set_solver.
    by rewrite (merge_opening_cell _ _ "moves" Hm), Hmoves. }
  rewrite He. apply mapM_Raise_inv in He as (row' & _ & He).
  by apply normalise_row_raises in He as ->.
Qed.

Lemma missing_moves_raises_witness :
  get_player_games
    [raw (Some "white") "mate" "English Opening" "c4 e5";
     {| raw_fields := {["status" := "aborted"]};
        raw_opening := Some {["name" := "Sicilian Defense"]} |}]
  = Raise AttributeError.
Proof.
  apply (missing_moves_raises _ 1
           {| raw_fields := {["status" := "aborted"]};
              raw_opening := Some {["name" := "Sicilian Defense"]} |}).
  - repeat constructor; by eexists.
  - intros c Hc. apply Exists_cons_hd.
    repeat (apply elem_of_cons in Hc as [->|Hc]); [by eexists..|].
    by apply elem_of_nil in Hc.
  - reflexivity.
  - reflexivity.
Defined.

(** ** The importer: what a row holds *)

(** X12: when the import returns, the table has one row per game, in the
    order of the list; the row of a game holds the game's winner and status
    as they came (the nested dict winning on a shared key) and the
    whitespace-separated tokens of its moves string. *)
Theorem import_keeps_one_row_per_game games_list games_df :
  get_player_games games_list = Ok games_df →
  length games_df = length games_list
  ∧ ∀ i x, games_list !! i = Some x →
      ∃ g mv, games_df !! i = Some g
              ∧ winner g = merged_cell x "winner"
              ∧ status g = merged_cell x "status"
              ∧ merged_cell x "moves" = Some mv
              ∧ moves g = py_split mv.
Proof.
  intros Hget. split.
  - unfold get_player_games in Hget.
    destruct (mapM merge_opening games_list) as [rows|e] eqn:Hrows; [|done].
    cbn in Hget. unfold select_columns in Hget.
    destruct (forallb _ _); [|done]. cbn in Hget.
    apply mapM_Ok_Forall2, Forall2_length in Hrows, Hget.
    rewrite length_fmap in Hget. lia.
  - intros i x Hx.
    destruct (raw_opening x) as [o|] eqn:Ho.
    2:{ by rewrite (missing_opening_raises_aux games_list i x Hx Ho) in Hget. }
    destruct (get_player_games_row _ _ _ _ _ Hget Hx Ho) as (g & Hg & Hrow).
    unfold normalise_row in Hrow.
    rewrite !selected_cell in Hrow by set_solver.
    unfold merged_cell. rewrite Ho. cbn.
    destruct ((o ∪ raw_fields x) !! "moves") as [mv|]; [|done]. cbn in Hrow.
    injection Hrow as <-. eexists _, mv. by split.
Qed.

Lemma import_keeps_one_row_per_game_witness :
  length [{| winner := Some "white"; status := Some "mate";
             opening := Some "English Opening"; variation := None;
             moves := ["c4"; "e5"] |}]
  = length [raw (Some "white") "mate" "English Opening" "c4 e5"]
  ∧ ∀ i x, [raw (Some "white") "mate" "English Opening" "c4 e5"] !! i = Some x →
      ∃ g mv, [{| winner := Some "white"; status := Some "mate";
                  opening := Some "English Opening"; variation := None;
                  moves := ["c4"; "e5"] |}] !! i = Some g
              ∧ winner g = merged_cell x "winner"
              ∧ status g = merged_cell x "status"
              ∧ merged_cell x "moves" = Some mv
              ∧ moves g = py_split mv.
Proof.
  apply (import_keeps_one_row_per_game
           [raw (Some "white") "mate" "English Opening" "c4 e5"]).
  vm_compute. reflexivity.
Defined.

Lemma match_before_colon_shorter s g :
  match_before_colon s = Some g → String.length g < String.length s.
Proof.
  revert g. induction s as [|c r IH]; intros g; simpl; [done|].
  destruct (if Ascii.eqb c newline then None else match_before_colon r)
    as [g'|] eqn:Hrest.
  - intros [= <-]. simpl. destruct (Ascii.eqb c newline); [done|].
    specialize (IH g' Hrest). lia.
  - destruct (Ascii.eqb c colon); [|done]. intros [= <-]. simpl. lia.
Qed.

Lemma re_search_before_colon_shorter s g :
  re_search match_before_colon s = Some g → String.length g < String.length s.
Proof.
  induction s as [|c r IH]; simpl; [done|].
  destruct (if Ascii.eqb c newline then None else match_before_colon r)
    as [g'|] eqn:Hrest.
  - intros [= <-]. simpl. destruct (Ascii.eqb c newline); [done|].
    apply match_before_colon_shorter in Hrest. lia.
  - destruct (Ascii.eqb c colon).
    + intros [= <-]. simpl. lia.
    + intros Hr. specialize (IH Hr). lia.
Qed.

Lemma re_search_before_colon_some s :
  has_char colon s = true → is_Some (re_search match_before_colon s).
Proof.
  induction s as [|c r IH]; simpl; [done|].
  destruct (if Ascii.eqb c newline then None else match_before_colon r)
    as [g'|] eqn:Hrest; [by eexists|].
  destruct (Ascii.eqb c colon); [by eexists|]. simpl. apply IH.
Qed.

Lemma re_search_after_colon_some s :
  has_char colon s = true → is_Some (re_search match_after_colon s).
Proof.
  induction s as [|c r IH]; simpl; [done|].
  destruct (Ascii.eqb c colon); [by eexists|]. simpl. apply IH.
Qed.

(** X13: in a table that the import returns, a row has no variation exactly
    when the opening name of its game holds no colon, and its opening is the
    whole name exactly then. *)
Theorem variation_absent_iff_no_colon games_list games_df i x o name :
  get_player_games games_list = Ok games_df →
  games_list !! i = Some x →
  raw_opening x = Some o → o !! "name" = Some name →
  ∃ g, games_df !! i = Some g
       ∧ (variation g = None ↔ has_char colon name = false)
       ∧ (opening g = Some name ↔ has_char colon name = false).
Proof.
  intros Hget Hx Ho Hname.
  destruct (get_player_games_row _ _ _ _ _ Hget Hx Ho) as (g & Hg & Hrow).
  exists g. split; [done|].
  unfold normalise_row in Hrow.
  rewrite (selected_name _ _ _ Hname) in Hrow.
  destruct (_ !! "moves") as [mv|]; [|done]. cbn in Hrow.
  injection Hrow as <-. cbn [variation opening]. unfold str_extract. cbn.
  destruct (has_char colon name) eqn:Hcolon.
  - destruct (re_search_after_colon_some name Hcolon) as [v ->].
    destruct (re_search_before_colon_some name Hcolon) as [a Ha].
    rewrite Ha. rewrite bool_decide_eq_false_2 by done.
    split; [done|]. split; [|done]. intros [= ->].
    apply re_search_before_colon_shorter in Ha. lia.
  - destruct (str_extract_no_colon name Hcolon) as [Hop Hvar].
    cbn in Hop, Hvar. rewrite Hop, Hvar.
    by rewrite bool_decide_eq_true_2.
Qed.

Lemma variation_absent_iff_no_colon_witness :
  ∃ g, [{| winner := Some "white"; status := Some "mate";
           opening := Some "Sicilian Defense";
           variation := Some " Najdorf Variation";
           moves := ["e4"; "c5"] |}] !! 0 = Some g
       ∧ (variation g = None
          ↔ has_char colon "Sicilian Defense: Najdorf Variation" = false)
       ∧ (opening g = Some "Sicilian Defense: Najdorf Variation"
          ↔ has_char colon "Sicilian Defense: Najdorf Variation" = false).
Proof.
  apply (variation_absent_iff_no_colon
           [raw (Some "white") "mate" "Sicilian Defense: Najdorf Variation" "e4 c5"]
           _ 0
           (raw (Some "white") "mate" "Sicilian Defense: Najdorf Variation" "e4 c5")
           (<["eco" := "B90"]> {["name" := "Sicilian Defense: Najdorf Variation"]})).
  - vm_compute. reflexivity.
  - reflexivity.
  - reflexivity.
  - vm_compute. reflexivity.
Defined.

(** X14: for a one-line name with exactly one colon the row splits the name
    around it: [opening] is the text before the colon and [variation] the
    text after it (the blank that follows the colon included). *)
Theorem single_colon_name_splits games_list games_df i x o a b :
  get_player_games games_list = Ok games_df →
  games_list !! i = Some x →
  raw_opening x = Some o → o !! "name" = Some (a +:+ String colon b) →
  has_char colon a = false → has_char colon b = false →
  has_char newline a = false → has_char newline b = false →
  ∃ g, games_df !! i = Some g ∧ opening g = Some a ∧ variation g = Some b.
Proof.
  intros Hget Hx Ho Hname Hca Hcb Hna Hnb.
  destruct (importer_opening_before_last_colon _ _ _ _ _ _ _ Hget Hx Ho Hname Hna Hcb)
    as (g & Hg & Hop).
  destruct (importer_variation_after_first_colon _ _ _ _ _ _ _ Hget Hx Ho Hname Hca)
    as (g' & Hg' & Hvar).
  rewrite Hg in Hg'. injection Hg' as <-.
  exists g. by rewrite Hop, Hvar, dot_star_one_line.
Qed.

Lemma single_colon_name_splits_witness :
  ∃ g, [{| winner := Some "white"; status := Some "mate";
           opening := Some "Sicilian Defense";
           variation := Some " Najdorf Variation";
           moves := ["e4"; "c5"] |}] !! 0 = Some g
       ∧ opening g = Some "Sicilian Defense"
       ∧ variation g = Some " Najdorf Variation".
Proof.
  apply (single_colon_name_splits
           [raw (Some "white") "mate" "Sicilian Defense: Najdorf Variation" "e4 c5"]
           _ 0
           (raw (Some "white") "mate" "Sicilian Defense: Najdorf Variation" "e4 c5")
           (<["eco" := "B90"]> {["name" := "Sicilian Defense: Najdorf Variation"]})
           "Sicilian Defense" " Najdorf Variation").
  - vm_compute. reflexivity.
  - reflexivity.
  - reflexivity.
  - vm_compute. reflexivity.
  - reflexivity.
  - reflexivity.
  - reflexivity.
  - reflexivity.
Defined.

(** ** The tokens of [split] *)

Lemma string_app_nil_r s : s +:+ EmptyString = s.
Proof.
  induction s as [|c s IH]; [done|].
  change (String c (s +:+ EmptyString) = String c s). by rewrite IH.
Qed.

Lemma string_app_assoc s t u : (s +:+ t) +:+ u = s +:+ (t +:+ u).
Proof.
  induction s as [|c s IH]; [done|].
  change (String c ((s +:+ t) +:+ u) = String c (s +:+ (t +:+ u))).
  by rewrite IH.
Qed.

Lemma has_space_app s t : has_space (s +:+ t) = has_space s || has_space t.
Proof. induction s as [|c s IH]; [done|]. simpl. by rewrite IH, orb_assoc. Qed.

Lemma string_app_not_empty s c : s +:+ String c EmptyString ≠ EmptyString.
Proof. by destruct s. Qed.

Lemma py_split_from_tokens s : ∀ tok,
  has_space tok = false →
  Forall (λ t, t ≠ EmptyString ∧ has_space t = false) (py_split_from tok s).
Proof.
  assert (Hflush : ∀ tok, has_space tok = false →
            Forall (λ t, t ≠ EmptyString ∧ has_space t = false) (flush tok)).
  { intros [|c tok] Htok; constructor; [by split|done]. }
  induction s as [|c s IH]; intros tok Htok; simpl; [by apply Hflush|].
  destruct (is_space c) eqn:Hc.
  - apply Forall_app. split; [by apply Hflush|by apply IH].
  - apply IH. rewrite has_space_app. simpl. by rewrite Htok, Hc.
Qed.

Lemma py_split_from_run t : ∀ acc s,
  has_space t = false →
  py_split_from acc (t +:+ s) = py_split_from (acc +:+ t) s.
Proof.
  induction t as [|c t IH]; intros acc s Ht.
  - by rewrite string_app_nil_r.
  - simpl in Ht. apply orb_false_iff in Ht as [Hc Ht].
    simpl. rewrite Hc, IH by done.
    by rewrite string_app_assoc.
Qed.

Lemma py_split_token_then_blank t s :
  t ≠ EmptyString → has_space t = false →
  py_split (t +:+ String " "%char s) = t :: py_split s.
Proof.
  intros Hne Ht. unfold py_split. rewrite py_split_from_run by done.
  simpl. by destruct t.
Qed.

Lemma py_split_one_token t :
  t ≠ EmptyString → has_space t = false → py_split t = [t].
Proof.
  intros Hne Ht. unfold py_split.
  rewrite <- (string_app_nil_r t) at 1. rewrite py_split_from_run by done.
  simpl. by destruct t.
Qed.

Lemma is_space_spec c : is_space c = existsb (Ascii.eqb c) python_whitespace.
Proof. by destruct c as [[] [] [] [] [] [] [] []]. Qed.

Lemma existsb_orb {A} (f g : A → bool) l :
  existsb (λ x, f x || g x) l = existsb f l || existsb g l.
Proof.
  induction l as [|x l IH]; simpl; [done|]. rewrite IH.
  destruct (f x), (g x), (existsb f l); simpl; by rewrite ?orb_true_r.
Qed.

Lemma has_space_spec s : has_space s = holds_whitespace s.
Proof.
  unfold holds_whitespace. induction s as [|d r IH].
  - by vm_compute.
  - cbn [has_space]. rewrite IH, is_space_spec.
    change (λ c, has_char c (String d r))
      with (λ c, Ascii.eqb d c || has_char c r).
    by rewrite existsb_orb.
Qed.

(** X15: the tokens that line 62 makes of a moves string are never empty
    and hold none of the whitespace characters of Python (tab, line feed,
    vertical tab, form feed, carriage return, FS, GS, RS, US, blank, next
    line, no-break space), however the string is spaced. *)
Theorem split_tokens_are_words s :
  Forall (λ t, t ≠ EmptyString ∧ holds_whitespace t = false) (py_split s).
Proof.
  eapply Forall_impl; [by apply (py_split_from_tokens s EmptyString)|].
  intros t [Hne Ht]. by rewrite <- has_space_spec.
Qed.

(** X16: the split of line 62 undoes a join with single blanks: tokens that
    are not empty and hold none of the whitespace characters of Python come
    back as they were, in order. *)
Theorem split_of_joined_tokens tokens :
  Forall (λ t, t ≠ EmptyString ∧ holds_whitespace t = false) tokens →
  py_split (join_spaces tokens) = tokens.
Proof.
  induction 1 as [|t rest [Hne Ht] Hrest IH]; [done|].
  rewrite <- has_space_spec in Ht.
  destruct rest as [|t' rest].
  - by apply py_split_one_token.
  - change (join_spaces (t :: t' :: rest))
      with (t +:+ String " "%char (join_spaces (t' :: rest))).
    rewrite py_split_token_then_blank by done. by rewrite IH.
Qed.

Lemma split_of_joined_tokens_witness :
  py_split (join_spaces ["e4"; "e5"; "Nf3"]) = ["e4"; "e5"; "Nf3"].
Proof.
  apply (split_of_joined_tokens ["e4"; "e5"; "Nf3"]).
  repeat constructor; discriminate.
Defined.

(** The split of line 62 at the two whitespace characters above the ASCII
    range. *)
Example split_at_no_break_space :
  py_split (String "e" (String "4" (String "160" (String "e" (String "5" EmptyString)))))
  = ["e4"; "e5"]
  ∧ py_split (String "e" (String "4" (String "133" (String "e" (String "5" EmptyString)))))
    = ["e4"; "e5"].
Proof. split; reflexivity. Qed.

(** ** The masks and the reports of the script *)

Lemma opposite_color_differs color : opposite_color color ≠ color.
Proof. unfold opposite_color. case_bool_decide; by subst. Qed.

(** X17: no game is both in [win_mask] and in [not_win_mask], whatever the
    color string is. *)
Theorem win_and_not_win_exclude color games_df :
  zip_with andb (win_mask color games_df) (not_win_mask color games_df)
  = replicate (length games_df) false.
Proof.
  unfold win_mask, not_win_mask.
  induction games_df as [|g df IH]; [done|].
  cbn [map zip_with length replicate]. rewrite IH. f_equal.
  pose proof (opposite_color_differs color).
  repeat case_bool_decide; simpl; congruence.
Qed.

(** X18: for the color "white" or "black" and a table whose winners are
    "white", "black" or missing, [not_win_mask] is the complement of
    [win_mask], and [lose_mask] marks the games of [not_win_mask] that have
    a winner. *)
Theorem masks_split_the_table color games_df :
  color = "white" ∨ color = "black" →
  Forall (λ g, winner g = None ∨ winner g = Some "white"
               ∨ winner g = Some "black") games_df →
  not_win_mask color games_df = negb <$> win_mask color games_df
  ∧ lose_mask color games_df
    = zip_with andb (not_win_mask color games_df)
                    ((λ g, bool_decide (is_Some (winner g))) <$> games_df).
Proof.
  intros Hcolor Hwinners. unfold win_mask, not_win_mask, lose_mask.
  induction Hwinners as [|g df Hg _ [IH1 IH2]]; [done|].
  split.
  - simpl. f_equal; [|exact IH1].
    destruct Hcolor as [-> | ->], Hg as [Hg|[Hg|Hg]]; by rewrite Hg.
  - simpl. f_equal; [|exact IH2].
    destruct Hcolor as [-> | ->], Hg as [Hg|[Hg|Hg]]; by rewrite Hg.
Qed.

Lemma masks_split_the_table_witness :
  let games_df :=
    [{| winner := Some "white"; status := Some "mate"; opening := Some "A";
        variation := None; moves := [] |};
     {| winner := None; status := Some "draw"; opening := Some "B";
        variation := None; moves := [] |};
     {| winner := Some "black"; status := Some "resign"; opening := Some "A";
        variation := None; moves := [] |}] in
  not_win_mask "black" games_df = negb <$> win_mask "black" games_df
  ∧ lose_mask "black" games_df
    = zip_with andb (not_win_mask "black" games_df)
                    ((λ g, bool_decide (is_Some (winner g))) <$> games_df).
Proof.
  apply masks_split_the_table.
  - by right.
  - repeat constructor; simpl; tauto.
Defined.

Lemma sum_bump v acc :
  sum_list_with snd (bump v acc) = S (sum_list_with snd acc).
Proof.
  induction acc as [|[k n] rest IH]; simpl; [done|].
  case_bool_decide; simpl; [done|]. rewrite IH. lia.
Qed.

Lemma sum_tally vs : sum_list_with snd (tally vs) = length vs.
Proof.
  unfold tally.
  assert (H : ∀ acc, sum_list_with snd (fold_left (λ acc v, bump v acc) vs acc)
                     = sum_list_with snd acc + length vs).
  { induction vs as [|v vs IH]; intros acc; simpl; [lia|].
    rewrite IH, sum_bump. lia. }
  by rewrite H.
Qed.

Lemma sum_value_counts col :
  sum_list_with snd (value_counts col) = length (filter is_Some col).
Proof.
  unfold value_counts. rewrite merge_sort_Permutation, sum_tally.
  induction col as [|[v|] col IH]; [done| |].
  - rewrite filter_cons_True by done. cbn. by rewrite <- IH.
  - rewrite filter_cons_False by (by intros [? ?]). done.
Qed.

Lemma length_filter_is_Some_column (f : GameRecord → option string) df :
  length (filter is_Some (f <$> df)) = length (filter (λ g, is_Some (f g)) df).
Proof.
  induction df as [|g df IH]; [done|].
  rewrite fmap_cons, !filter_cons. case_decide; simpl; by rewrite IH.
Qed.

Lemma not_win_report_sum color games_df :
  sum_list_with snd (not_win_report color games_df)
  = length (filter (λ g, is_Some (status g)
                         ∧ (winner g = Some (opposite_color color)
                            ∨ winner g = None)) games_df).
Proof.
  unfold not_win_report. rewrite sum_value_counts.
  rewrite boolean_index_not_win, length_filter_is_Some_column.
  by rewrite list_filter_filter.
Qed.

(** X19: the counts of a report add up to the number of games it is about:
    the games with an opening for the opening report; for the status report
    of a player with the black pieces the games with a status whose winner
    is "white" or missing, and for a player with the white pieces those
    whose winner is "black" or missing. No game is counted twice or left
    out. *)
Theorem report_counts_add_up games_df :
  sum_list_with snd (opening_report games_df)
  = length (filter (λ g, is_Some (opening g)) games_df)
  ∧ sum_list_with snd (not_win_report "black" games_df)
    = length (filter (λ g, is_Some (status g)
                           ∧ (winner g = Some "white" ∨ winner g = None)) games_df)
  ∧ sum_list_with snd (not_win_report "white" games_df)
    = length (filter (λ g, is_Some (status g)
                           ∧ (winner g = Some "black" ∨ winner g = None)) games_df).
Proof.
  split; [|split].
  - unfold opening_report. rewrite sum_value_counts.
    apply length_filter_is_Some_column.
  - exact (not_win_report_sum "black" games_df).
  - exact (not_win_report_sum "white" games_df).
Qed.

(** X20: the first entry of the opening report is an opening played most
    often: its count is the number of games with that opening, and no
    opening occurs in more games. *)
Theorem report_head_is_most_common games_df v0 c0 rest :
  opening_report games_df = (v0, c0) :: rest →
  c0 = length (filter (λ g, opening g = Some v0) games_df)
  ∧ ∀ v, length (filter (λ g, opening g = Some v) games_df) ≤ c0.
Proof.
  intros Hreport.
  destruct (value_counts_spec (opening <$> games_df)) as (Hs & _ & Hc).
  fold (opening_report games_df) in Hs, Hc. rewrite Hreport in Hs, Hc.
  split.
  - destruct (Hc v0 c0) as [[-> _] _]; [by left|].
    apply length_filter_column.
  - intros v. rewrite <- length_filter_column.
    destruct (length (filter (λ cell, cell = Some v) (opening <$> games_df)))
      as [|c] eqn:Hcount; [lia|].
    destruct (Hc v (S c)) as [_ Hin]. rewrite Hcount in Hin.
    specialize (Hin (conj eq_refl (Nat.lt_0_succ c))).
    apply elem_of_cons in Hin as [[= _ ->]|Hin]; [done|].
    apply StronglySorted_inv in Hs as [_ Hall].
    rewrite Forall_forall in Hall. apply (Hall _ Hin).
Qed.

Lemma report_head_is_most_common_witness :
  let games_df :=
    (λ o, {| winner := None; status := None; opening := Some o;
             variation := None; moves := [] |}) <$> ["A"; "B"; "A"; "A"; "B"] in
  3 = length (filter (λ g, opening g = Some "A") games_df)
  ∧ ∀ v, length (filter (λ g, opening g = Some v) games_df) ≤ 3.
Proof.
  apply (report_head_is_most_common _ "A" 3 [("B", 2)]).
  reflexivity.
Defined.

Lemma filter_all_games (P : GameRecord → Prop) `{!∀ g, Decision (P g)} df :
  Forall P df → filter P df = df.
Proof.
  induction 1 as [|g df Hg _ IH]; [done|].
  by rewrite filter_cons_True, IH.
Qed.

(** X21: after an import that returns, when every game has an opening name,
    the counts of the opening report add up to the number of games in the
    list: every game is counted under one opening. *)
Theorem imported_games_all_counted games_list games_df :
  get_player_games games_list = Ok games_df →
  Forall (λ x, is_Some (merged_cell x "name")) games_list →
  sum_list_with snd (opening_report games_df) = length games_list.
Proof.
  intros Hget Hnames.
  unfold opening_report. rewrite sum_value_counts, length_filter_is_Some_column.
  assert (Hlen : length games_df = length games_list).
  { unfold get_player_games in Hget.
    destruct (mapM merge_opening games_list) as [rows|e] eqn:Hrows; [|done].
    cbn in Hget. unfold select_columns in Hget.
    destruct (forallb _ _); [|done]. cbn in Hget.
    apply mapM_Ok_Forall2, Forall2_length in Hrows, Hget.
    rewrite length_fmap in Hget. lia. }
  rewrite <- Hlen. f_equal. apply filter_all_games.
  apply Forall_lookup. intros i g Hg.
  destruct (lookup_lt_is_Some_2 games_list i) as [x Hx].
  { rewrite <- Hlen. by eapply lookup_lt_Some. }
  rewrite Forall_lookup in Hnames. destruct (Hnames i x Hx) as [name Hname].
  unfold merged_cell in Hname.
  destruct (raw_opening x) as [o|] eqn:Ho; [|done]. cbn in Hname.
  destruct (get_player_games_row _ _ _ _ _ Hget Hx Ho) as (g' & Hg' & Hrow).
  rewrite Hg in Hg'. injection Hg' as <-.
  unfold normalise_row in Hrow.
  rewrite !selected_cell in Hrow by set_solver. rewrite Hname in Hrow.
  destruct (_ !! "moves") as [mv|]; [|done]. cbn in Hrow.
  injection Hrow as <-. cbn [opening].
  case_bool_decide as Hex; [by eexists|].
  destruct (re_search match_before_colon name); [by eexists|by destruct Hex].
Qed.

Lemma imported_games_all_counted_witness :
  sum_list_with snd
    (opening_report
       [{| winner := Some "white"; status := Some "mate";
           opening := Some "English Opening"; variation := None;
           moves := ["c4"; "e5"] |}])
  = length [raw (Some "white") "mate" "English Opening" "c4 e5"].
Proof.
  apply (imported_games_all_counted
           [raw (Some "white") "mate" "English Opening" "c4 e5"]).
  - vm_compute. reflexivity.
  - repeat constructor. by eexists.
Defined.
